(** * Receiptify (src/index.tsx): a shallow embedding and its properties

    The application is one React component, [App].  Its state is the
    eight [useState] cells (lines 11-18), here the record [State]; its
    handlers are functions from state to state under the names they have
    in the source; its three effects (lines 20-52) read and write
    [localStorage] and queue state updates.  [World] puts the component
    state together with the store and the ingestions in flight, [Event] is
    what the user and the network can make happen, [dispatch] runs the
    handler of an event and the commit that follows it, [mount] loads the
    page, and [reachable] is the set of worlds the application gets into
    from an empty store.

    Conventions of the embedding.
    - A JavaScript number is an integer of [Z]: amounts, quantities and
      the millisecond clock.  Fractions and the values that are no finite
      number are left out; [NaN] shows up only as the result of
      [parseFloat] and of [Date.prototype.getTime], where it is [None].
      A number is a double: the integers up to 2^53 in magnitude are all
      doubles, an addition that leaves that range rounds ([double],
      [Number_add]).
    - A property that may be missing ([undefined]) is an [option].
    - The extraction response has the shape of the [responseSchema] the
      request carries (lines 111-135): strings and numbers at the named
      properties, each of which may be missing.
    - The built-ins the source calls ([JSON.stringify], [JSON.parse],
      [Array.prototype.sort], [Date.parse], [parseFloat], [toUpperCase],
      [localStorage]) are modelled on the inputs the application gives
      them; each definition says where it stops.
    - What the environment decides is an argument: the file and what the
      reader makes of it, the answer of the hosted model, the clock, the
      answer to [window.confirm], the UUID, the quota of the store. *)

From Stdlib Require Import ZArith String Ascii List Lia Permutation Sorted.
From Stdlib Require Import DecimalString DecimalZ DecimalPos DecimalFacts.
From stdpp Require Import gmap strings list.

Local Open Scope string_scope.
Local Open Scope Z_scope.

(** ** JavaScript truthiness and [||] *)

Class Truthy (A : Type) := truthy : A → bool.

(** [0] is the only falsy integer. *)
#[global] Instance Z_truthy : Truthy Z := fun n => negb (n =? 0).

(** The empty string is the only falsy string. *)
#[global] Instance string_truthy : Truthy string :=
  fun s => match s with EmptyString => false | String _ _ => true end.

(** [undefined] is falsy; a present value is as truthy as it is itself. *)
#[global] Instance option_truthy {A} `{Truthy A} : Truthy (option A) :=
  fun o => match o with Some a => truthy a | None => false end.

(** [a || b]: [a] when it is truthy, [b] otherwise. *)
Definition js_or {A} `{Truthy A} (a b : A) : A := if truthy a then a else b.

(** [a || d] where [a] may be [undefined] and [d] is a literal. *)
Definition or_else {A} `{Truthy A} (a : option A) (d : A) : A :=
  match a with
  | Some x => if truthy x then x else d
  | None => d
  end.

(** ** Data model *)

(** A line item as the extraction response carries it. *)
Record ParsedItem := {
  p_description : option string;
  p_description_en : option string;
  p_quantity : option Z;
  p_unit_price : option Z;
  p_price : option Z
}.

(** The extraction response, [parsedData] at line 139. *)
Record ParsedData := {
  p_merchant : option string;
  p_date : option string;
  p_total : option Z;
  p_currency : option string;
  p_items : option (list ParsedItem)
}.

(** A line item of a stored record: the object literal of lines 143-147 and
    211 has all five properties. *)
Record LineItem := {
  description : string;
  description_en : string;
  quantity : Z;
  unit_price : Z;
  price : Z
}.

(** An expense record: [{ ...processedData, id: Date.now() }]. *)
Record Expense := {
  id : Z;
  merchant : option string;
  date : option string;
  total : option Z;
  currency : option string;
  items : list LineItem
}.

#[global] Instance LineItem_eq_dec : EqDecision LineItem.
Proof. solve_decision. Defined.

#[global] Instance Expense_eq_dec : EqDecision Expense.
Proof. solve_decision. Defined.

(** ** JSON text

    [JSON.stringify] and [JSON.parse] on the values the application
    stores: [null], booleans, integers, strings, arrays and objects; an
    object is the list of its members in property order.  The text is a
    string of bytes: a character outside ASCII is the bytes of its UTF-8
    form, which [JSON.stringify] copies as they are.  [JSON.parse] is
    [None] where the built-in throws, and also on a number with a
    fraction or an exponent and on a [\u] escape above 7F, which have no
    value here. *)

#[local] Unset Elimination Schemes.
Inductive json :=
| JNull
| JBool (b : bool)
| JNum (n : Z)
| JStr (s : string)
| JArr (elements : list json)
| JObj (members : list (string * json)).
#[local] Set Elimination Schemes.

(** The double quote. *)
Definition quote : ascii := "034"%char.

(** The lower-case hexadecimal digit of [n < 16]. *)
Definition hex_digit (n : N) : ascii :=
  if (n <? 10)%N then ascii_of_N (48 + n) else ascii_of_N (87 + n).

(** How [JSON.stringify] writes a character inside a string: the quote and
    the backslash behind a backslash, a control character by its short
    escape or as [\u00XX], any other character as it is. *)
Definition escape_char (c : ascii) : string :=
  match c with
  | "034"%char => String "\" (String quote "")
  | "\"%char => "\\"
  | "008"%char => "\b"
  | "009"%char => "\t"
  | "010"%char => "\n"
  | "012"%char => "\f"
  | "013"%char => "\r"
  | _ =>
      let n := N_of_ascii c in
      if (n <? 32)%N
      then "\u00" +:+ String (hex_digit (n / 16)) (String (hex_digit (n mod 16)) "")
      else String c ""
  end.

Fixpoint escape (s : string) : string :=
  match s with
  | EmptyString => ""
  | String c r => escape_char c +:+ escape r
  end.

(** The text of a string: its escaped characters between quotes. *)
Definition QuoteJSONString (s : string) : string :=
  String quote (escape s +:+ String quote "").

(** [l.join(sep)] *)
Fixpoint join (sep : string) (l : list string) : string :=
  match l with
  | [] => ""
  | [x] => x
  | x :: l' => x +:+ sep +:+ join sep l'
  end.

(** [JSON.stringify] with no indentation. *)
Fixpoint JSON_stringify (j : json) : string :=
  match j with
  | JNull => "null"
  | JBool true => "true"
  | JBool false => "false"
  | JNum n => NilZero.string_of_int (Z.to_int n)
  | JStr s => QuoteJSONString s
  | JArr l => "[" +:+ join "," (map JSON_stringify l) +:+ "]"
  | JObj m =>
      "{" +:+ join ","
                (map (fun kv => QuoteJSONString (fst kv) +:+ ":"
                                +:+ JSON_stringify (snd kv)) m)
          +:+ "}"
  end.

(** The white space of JSON: space, tab, line feed, carriage return. *)
Definition is_ws (c : ascii) : bool :=
  match c with
  | " "%char | "009"%char | "010"%char | "013"%char => true
  | _ => false
  end.

Fixpoint skip_ws (s : string) : string :=
  match s with
  | String c r => if is_ws c then skip_ws r else s
  | EmptyString => s
  end.

(** The decimal digits. *)
Definition is_digit (c : ascii) : bool :=
  let n := N_of_ascii c in ((48 <=? n) && (n <=? 57))%N.

(** The digits at the front of [s] and what follows them. *)
Fixpoint span_digits (s : string) : string * string :=
  match s with
  | String c r =>
      if is_digit c then let '(ds, rest) := span_digits r in (String c ds, rest)
      else ("", s)
  | EmptyString => ("", "")
  end.

(** An integer literal at the front of [s]: an optional minus sign and
    digits with no leading zero. *)
Definition parse_number (s : string) : option (Z * string) :=
  let '(negative, body) :=
    match s with
    | String "-" r => (true, r)
    | _ => (false, s)
    end in
  let '(ds, rest) := span_digits body in
  match ds with
  | String "0" (String _ _) => None
  | _ =>
      d ← NilZero.uint_of_string ds;
      Some (Z.of_int (if negative then Decimal.Neg d else Decimal.Pos d), rest)
  end.

(** The value of a hexadecimal digit. *)
Definition hex_value (c : ascii) : option N :=
  let n := N_of_ascii c in
  if ((48 <=? n) && (n <=? 57))%N then Some (n - 48)%N
  else if ((97 <=? n) && (n <=? 102))%N then Some (n - 87)%N
  else if ((65 <=? n) && (n <=? 70))%N then Some (n - 55)%N
  else None.

(** [c] in front of the string that [r] has read. *)
Definition cons_char (c : ascii) (r : option (string * string))
  : option (string * string) :=
  '(s, rest) ← r; Some (String c s, rest).

(** The characters of a string up to its closing quote, the opening quote
    being read already, and what follows the closing quote. *)
Fixpoint parse_string_body (s : string) : option (string * string) :=
  match s with
  | EmptyString => None
  | String "034" rest => Some ("", rest)
  | String "\" (String "u" (String a (String b (String c (String d rest))))) =>
      match hex_value a, hex_value b, hex_value c, hex_value d with
      | Some 0%N, Some 0%N, Some h, Some l =>
          if (h <? 8)%N then cons_char (ascii_of_N (16 * h + l)) (parse_string_body rest)
          else None
      | _, _, _, _ => None
      end
  | String "\" (String e rest) =>
      match e with
      | "034"%char => cons_char quote (parse_string_body rest)
      | "\"%char => cons_char "\" (parse_string_body rest)
      | "/"%char => cons_char "/" (parse_string_body rest)
      | "b"%char => cons_char "008" (parse_string_body rest)
      | "t"%char => cons_char "009" (parse_string_body rest)
      | "n"%char => cons_char "010" (parse_string_body rest)
      | "f"%char => cons_char "012" (parse_string_body rest)
      | "r"%char => cons_char "013" (parse_string_body rest)
      | _ => None
      end
  | String "\" EmptyString => None
  | String c rest =>
      if (N_of_ascii c <? 32)%N then None
      else cons_char c (parse_string_body rest)
  end.

(** What is left of [s] behind the literal [lit]. *)
Fixpoint expect (lit s : string) : option string :=
  match lit, s with
  | EmptyString, _ => Some s
  | String a lit', String b s' => if Ascii.eqb a b then expect lit' s' else None
  | String _ _, EmptyString => None
  end.

(** The elements of an array that has one at least, up to its bracket;
    [value] reads one value and [n] bounds the number of elements. *)
Fixpoint parse_elements (value : string → option (json * string)) (n : nat)
  (s : string) : option (list json * string) :=
  match n with
  | O => None
  | S n =>
      '(v, r) ← value s;
      match skip_ws r with
      | String c r' =>
          if Ascii.eqb c "," then
            '(vs, r'') ← parse_elements value n r'; Some (v :: vs, r'')
          else if Ascii.eqb c "]" then Some ([v], r')
          else None
      | EmptyString => None
      end
  end.

(** The members of an object that has one at least, up to its brace. *)
Fixpoint parse_members (value : string → option (json * string)) (n : nat)
  (s : string) : option (list (string * json) * string) :=
  match n with
  | O => None
  | S n =>
      r ← expect (String quote "") (skip_ws s);
      '(k, r1) ← parse_string_body r;
      r2 ← expect ":" (skip_ws r1);
      '(v, r3) ← value r2;
      match skip_ws r3 with
      | String c r4 =>
          if Ascii.eqb c "," then
            '(kvs, r5) ← parse_members value n r4; Some ((k, v) :: kvs, r5)
          else if Ascii.eqb c "}" then Some ([(k, v)], r4)
          else None
      | EmptyString => None
      end
  end.

(** A value at the front of [s] and what follows it; [fuel] bounds the
    nesting and the length of the arrays and objects. *)
Fixpoint parse_value (fuel : nat) (s : string) : option (json * string) :=
  match fuel with
  | O => None
  | S fuel =>
      match skip_ws s with
      | EmptyString => None
      | String c r =>
          if Ascii.eqb c "n" then r' ← expect "ull" r; Some (JNull, r')
          else if Ascii.eqb c "t" then r' ← expect "rue" r; Some (JBool true, r')
          else if Ascii.eqb c "f" then r' ← expect "alse" r; Some (JBool false, r')
          else if Ascii.eqb c quote then
            '(str, r') ← parse_string_body r; Some (JStr str, r')
          else if Ascii.eqb c "[" then
            match expect "]" (skip_ws r) with
            | Some r' => Some (JArr [], r')
            | None =>
                '(l, r') ← parse_elements (parse_value fuel) fuel r;
                Some (JArr l, r')
            end
          else if Ascii.eqb c "{" then
            match expect "}" (skip_ws r) with
            | Some r' => Some (JObj [], r')
            | None =>
                '(m, r') ← parse_members (parse_value fuel) fuel r;
                Some (JObj m, r')
            end
          else '(n, r') ← parse_number (String c r); Some (JNum n, r')
      end
  end.

(** [JSON.parse]: one value with nothing but white space behind it.  The
    length of the text is fuel enough for every value it can hold. *)
Definition JSON_parse (s : string) : option json :=
  '(j, rest) ← parse_value (S (String.length s)) s;
  match skip_ws rest with
  | EmptyString => Some j
  | String _ _ => None
  end.

(** *** Measures and shapes used in the proofs about the text *)

(** Induction on a value that reaches the elements of its arrays and the
    members of its objects. *)
Section json_ind.
Variable P : json → Prop.
Hypothesis Hnull : P JNull.
Hypothesis Hbool : ∀ b, P (JBool b).
Hypothesis Hnum : ∀ n, P (JNum n).
Hypothesis Hstr : ∀ s, P (JStr s).
Hypothesis Harr : ∀ l, Forall P l → P (JArr l).
Hypothesis Hobj : ∀ m, Forall (fun kv => P (snd kv)) m → P (JObj m).

Fixpoint json_ind (j : json) : P j :=
  match j with
  | JNull => Hnull
  | JBool b => Hbool b
  | JNum n => Hnum n
  | JStr s => Hstr s
  | JArr l =>
      Harr l ((fix go (l : list json) : Forall P l :=
                 match l with
                 | [] => @List.Forall_nil _ P
                 | x :: l' => @List.Forall_cons _ P x l' (json_ind x) (go l')
                 end) l)
  | JObj m =>
      Hobj m ((fix go (m : list (string * json))
                 : Forall (fun kv => P (snd kv)) m :=
                 match m with
                 | [] => @List.Forall_nil _ _
                 | kv :: m' =>
                     @List.Forall_cons _ (fun kv => P (snd kv)) kv m'
                       (json_ind (snd kv)) (go m')
                 end) m)
  end.
End json_ind.

(** The number of values in a value: the fuel its text needs. *)
Fixpoint size (j : json) : nat :=
  match j with
  | JArr l => S (list_sum (map size l))
  | JObj m => S (list_sum (map (fun kv => size (snd kv)) m))
  | _ => 1
  end.

(** The text of a number and of a member, as [JSON_stringify] writes them. *)
Definition print_number (n : Z) : string := NilZero.string_of_int (Z.to_int n).

Definition print_member (kv : string * json) : string :=
  QuoteJSONString (fst kv) +:+ ":" +:+ JSON_stringify (snd kv).

(** A text a number can stand in front of. *)
Definition no_digit_head (s : string) : Prop :=
  match s with
  | String c _ => is_digit c = false
  | EmptyString => True
  end.

(** The first character of the text of a value. *)
Definition value_head (c : ascii) : Prop :=
  is_ws c = false ∧ c ≠ "]"%char ∧ c ≠ "}"%char ∧ c ≠ ","%char.

(** *** Records as JSON values

    A record in memory is the object [JSON.parse] built or a copy of it;
    [expense_to_json] is that object and [expense_of_json] reads an object
    back as a record.  A property holding [undefined] is left out by
    [JSON.stringify], as a missing one is.  Reading fails on a value that
    is no record of the data model. *)

Definition item_to_json (item : LineItem) : json :=
  JObj [ ("description", JStr (description item));
         ("description_en", JStr (description_en item));
         ("quantity", JNum (quantity item));
         ("unit_price", JNum (unit_price item));
         ("price", JNum (price item)) ].

Definition member {A} (key : string) (to_json : A → json) (v : option A)
  : list (string * json) :=
  match v with
  | Some a => [(key, to_json a)]
  | None => []
  end.

Definition expense_to_json (e : Expense) : json :=
  JObj (member "merchant" JStr (merchant e) ++
        member "date" JStr (date e) ++
        member "total" JNum (total e) ++
        member "currency" JStr (currency e) ++
        [ ("items", JArr (map item_to_json (items e)));
          ("id", JNum (id e)) ]).

Definition expenses_to_json (l : list Expense) : json :=
  JArr (map expense_to_json l).

(** The value of property [key]; of two members with one key the later
    one counts. *)
Fixpoint get (key : string) (members : list (string * json)) : option json :=
  match members with
  | [] => None
  | (k, v) :: rest =>
      match get key rest with
      | Some v' => Some v'
      | None => if decide (k = key) then Some v else None
      end
  end.

Definition as_string (j : json) : option string :=
  match j with JStr s => Some s | _ => None end.

Definition as_number (j : json) : option Z :=
  match j with JNum n => Some n | _ => None end.

Definition as_array (j : json) : option (list json) :=
  match j with JArr l => Some l | _ => None end.

(** A property that has to be there. *)
Definition required {A} (read : json → option A) (v : option json)
  : option A := v ≫= read.

(** A property that may be missing. *)
Definition optional {A} (read : json → option A) (v : option json)
  : option (option A) :=
  match v with
  | Some j => Some <$> read j
  | None => Some None
  end.

Definition item_of_json (j : json) : option LineItem :=
  match j with
  | JObj m =>
      d ← required as_string (get "description" m);
      d_en ← required as_string (get "description_en" m);
      q ← required as_number (get "quantity" m);
      u ← required as_number (get "unit_price" m);
      p ← required as_number (get "price" m);
      Some {| description := d; description_en := d_en; quantity := q;
              unit_price := u; price := p |}
  | _ => None
  end.

Definition expense_of_json (j : json) : option Expense :=
  match j with
  | JObj m =>
      i ← required as_number (get "id" m);
      me ← optional as_string (get "merchant" m);
      da ← optional as_string (get "date" m);
      to ← optional as_number (get "total" m);
      cu ← optional as_string (get "currency" m);
      its ← required as_array (get "items" m) ≫= mapM item_of_json;
      Some {| id := i; merchant := me; date := da; total := to;
              currency := cu; items := its |}
  | _ => None
  end.

Definition expenses_of_json (j : json) : option (list Expense) :=
  as_array j ≫= mapM expense_of_json.

(** ** Item normalisation (lines 142-148) *)

Definition normalize_item (item : ParsedItem) : LineItem :=
  {| description := or_else (p_description item) "";
     description_en := or_else (p_description_en item) "";
     quantity := or_else (p_quantity item) 1;
     unit_price := or_else (js_or (p_unit_price item) (p_price item)) 0;
     price := or_else (p_price item) 0 |}.

(** [processedData] (lines 140-149) with the [id] of line 152 on top. *)
Definition make_expense (parsedData : ParsedData) (now : Z) : Expense :=
  {| id := now;
     merchant := p_merchant parsedData;
     date := p_date parsedData;
     total := p_total parsedData;
     currency := p_currency parsedData;
     items := map normalize_item (default [] (p_items parsedData)) |}.

(** ** Currency symbols (lines 72-84) *)

(** [String.prototype.toUpperCase] as far as the labels of the switch can
    tell: the ASCII letters, and the long s (U+017F, the bytes 197 191),
    whose upper-case form is S.  No other character outside ASCII has an
    upper-case form made of letters of a label; such bytes stay. *)
Definition upper_ascii (c : ascii) : ascii :=
  let n := N_of_ascii c in
  if ((97 <=? n) && (n <=? 122))%N then ascii_of_N (n - 32) else c.

Fixpoint toUpperCase (s : string) : string :=
  match s with
  | EmptyString => EmptyString
  | String "197" (String "191" r) => String "S" (toUpperCase r)
  | String c r => String (upper_ascii c) (toUpperCase r)
  end.

Definition won_sign : string := "₩".
Definition dollar_sign : string := "$".
Definition euro_sign : string := "€".

(** The [switch] compares [currency?.toUpperCase()] with its [case] labels
    from the top by [===]; the value is [undefined] for a missing currency,
    which is no label. *)
Definition getCurrencySymbol (currency : option string) : string :=
  let code := toUpperCase <$> currency in
  if decide (code = Some "KRW") then won_sign
  else if decide (code = Some "WON") then won_sign
  else if decide (code = Some "USD") then dollar_sign
  else if decide (code = Some "EUR") then euro_sign
  else won_sign.

(** The [case] labels of the switch. *)
Definition recognized_codes : list string := ["KRW"; "WON"; "USD"; "EUR"].

(** A currency the switch has no [case] for: missing, or a string whose
    upper-case form is none of the labels. *)
Definition unrecognized (currency : option string) : Prop :=
  match currency with
  | None => True
  | Some c => toUpperCase c ∉ recognized_codes
  end.

(** ** Component state (lines 11-18) *)

(** The two values [sortOrder] takes, ['desc'] first (line 16). *)
Inductive SortOrder := desc | asc.

Record State := {
  expenses : list Expense;
  image : option string;
  isLoading : bool;
  error : option string;
  userId : option string;
  sortOrder : SortOrder;
  editingId : option Z;
  editedExpense : option Expense
}.

Definition initial_state : State :=
  {| expenses := []; image := None; isLoading := false; error := None;
     userId := None; sortOrder := desc; editingId := None;
     editedExpense := None |}.

Definition setExpenses (v : list Expense) (st : State) : State :=
  {| expenses := v; image := image st; isLoading := isLoading st;
     error := error st; userId := userId st; sortOrder := sortOrder st;
     editingId := editingId st; editedExpense := editedExpense st |}.

Definition setImage (v : option string) (st : State) : State :=
  {| expenses := expenses st; image := v; isLoading := isLoading st;
     error := error st; userId := userId st; sortOrder := sortOrder st;
     editingId := editingId st; editedExpense := editedExpense st |}.

Definition setIsLoading (v : bool) (st : State) : State :=
  {| expenses := expenses st; image := image st; isLoading := v;
     error := error st; userId := userId st; sortOrder := sortOrder st;
     editingId := editingId st; editedExpense := editedExpense st |}.

Definition setError (v : option string) (st : State) : State :=
  {| expenses := expenses st; image := image st; isLoading := isLoading st;
     error := v; userId := userId st; sortOrder := sortOrder st;
     editingId := editingId st; editedExpense := editedExpense st |}.

Definition setUserId (v : option string) (st : State) : State :=
  {| expenses := expenses st; image := image st; isLoading := isLoading st;
     error := error st; userId := v; sortOrder := sortOrder st;
     editingId := editingId st; editedExpense := editedExpense st |}.

Definition setSortOrder (v : SortOrder) (st : State) : State :=
  {| expenses := expenses st; image := image st; isLoading := isLoading st;
     error := error st; userId := userId st; sortOrder := v;
     editingId := editingId st; editedExpense := editedExpense st |}.

Definition setEditingId (v : option Z) (st : State) : State :=
  {| expenses := expenses st; image := image st; isLoading := isLoading st;
     error := error st; userId := userId st; sortOrder := sortOrder st;
     editingId := v; editedExpense := editedExpense st |}.

Definition setEditedExpense (v : option Expense) (st : State) : State :=
  {| expenses := expenses st; image := image st; isLoading := isLoading st;
     error := error st; userId := userId st; sortOrder := sortOrder st;
     editingId := editingId st; editedExpense := v |}.

(** ** localStorage

    The store of one origin: its entries and the room it has.  [setItem]
    throws [QuotaExceededError], here [None], when the entries with the
    new one would take more than the quota, counted in characters of keys
    and values. *)

Record LocalStorage := { entries : gmap string string; quota : nat }.

Definition getItem (key : string) (ls : LocalStorage) : option string :=
  entries ls !! key.

Definition used (m : gmap string string) : nat :=
  map_fold (fun k v n => (String.length k + String.length v + n)%nat) 0%nat m.

Definition setItem (key value : string) (ls : LocalStorage)
  : option LocalStorage :=
  let m := <[key := value]> (entries ls) in
  if decide (used m ≤ quota ls)%nat
  then Some {| entries := m; quota := quota ls |}
  else None.

(** ** Effects (lines 20-52)

    An effect runs after a render, on the state of that render, and may
    queue state updates; they apply once the effects of the commit are
    through. *)

Inductive Update :=
| SetUserId (v : string)
| SetExpenses (v : list Expense)
| SetError (v : string).

Definition apply_update (st : State) (u : Update) : State :=
  match u with
  | SetUserId v => setUserId (Some v) st
  | SetExpenses v => setExpenses v st
  | SetError v => setError (Some v) st
  end.

Definition apply_updates (us : list Update) (st : State) : State :=
  foldl apply_update st us.

(** The two keys of the store: the one of the user, and the one of the
    expenses of a user. *)
Definition userId_key : string := "receiptify_userId".

Definition storageKey (user : string) : string := "expenses_" +:+ user.

(** Lines 20-27; [uuid] is what [crypto.randomUUID()] returns.  The
    [setItem] of line 24 is in no [try]: when it throws the effect is
    over, [None]. *)
Definition identity_effect (uuid : string) (ls : LocalStorage)
  : option (list Update * LocalStorage) :=
  let generated := "user_" +:+ uuid in
  match getItem userId_key ls with
  | Some currentUserId =>
      if truthy currentUserId then Some ([SetUserId currentUserId], ls)
      else ls' ← setItem userId_key generated ls;
           Some ([SetUserId generated], ls')
  | None =>
      ls' ← setItem userId_key generated ls;
      Some ([SetUserId generated], ls')
  end.

Definition load_error : string := "Could not load saved expenses.".
Definition save_error : string := "Could not save new expense.".

(** Lines 29-41.  The [catch] is for the [SyntaxError] of [JSON.parse];
    a text that parses to something else than records is outside the data
    model and takes the same arm here. *)
Definition load_effect (rendered : State) (ls : LocalStorage) : list Update :=
  match userId rendered with
  | Some user =>
      if truthy user then
        match getItem (storageKey user) ls with
        | Some storedExpenses =>
            if truthy storedExpenses then
              match JSON_parse storedExpenses ≫= expenses_of_json with
              | Some v => [SetExpenses v]
              | None => [SetError load_error]
              end
            else []
        | None => []
        end
      else []
  | None => []
  end.

(** Lines 43-52. *)
Definition save_effect (rendered : State) (ls : LocalStorage)
  : list Update * LocalStorage :=
  match userId rendered with
  | Some user =>
      if truthy user then
        match setItem (storageKey user)
                (JSON_stringify (expenses_to_json (expenses rendered))) ls with
        | Some ls' => ([], ls')
        | None => ([SetError save_error], ls)
        end
      else ([], ls)
  | None => ([], ls)
  end.

(** ** Receipt ingestion (lines 54-70 and 86-163) *)

(** What the browser knows of a selected file: its media type, the object
    URL it hands out for the preview, and what [FileReader.readAsDataURL]
    yields ([None] when the read errors or the result is no string). *)
Record File := {
  file_type : string;
  object_url : string;
  reader_result : option string
}.

Record InlineData := { data : option string; mimeType : string }.

(** [String.prototype.split] with a one-character separator. *)
Fixpoint split (sep : ascii) (s : string) : list string :=
  match s with
  | EmptyString => [EmptyString]
  | String c r =>
      if Ascii.eqb c sep then EmptyString :: split sep r
      else match split sep r with
           | h :: t => String c h :: t
           | [] => [String c EmptyString]
           end
  end.

(** The stages of the pipeline in which an ingestion can fail. *)
Inductive Stage := Reading | Requesting | Parsing.

(** The result of the [try] block: the exception's stage or the value. *)
Definition attempt (A : Type) : Type := (Stage + A)%type.

#[global] Instance attempt_ret : MRet attempt := fun _ a => inr a.

#[global] Instance attempt_bind : MBind attempt :=
  fun _ _ k m => match m with inl s => inl s | inr a => k a end.

(** [await p], where the promise [p] may reject in stage [s]. *)
Definition await {A} (s : Stage) (p : option A) : attempt A :=
  match p with Some a => inr a | None => inl s end.

(** [fileToGenerativePart]: the promise rejects when the reader errors or
    has no string; otherwise the payload is what follows the first comma
    of the data URL. *)
Definition fileToGenerativePart (file : File) : attempt InlineData :=
  match reader_result file with
  | Some result =>
      inr {| data := split "," result !! 1%nat; mimeType := file_type file |}
  | None => inl Reading
  end.

(** The hosted model and the decoding of its answer, as the handler sees
    them: [generateContent] resolves to the response text or rejects, and
    [JSON.parse] returns the decoded response or throws. *)
Record Extraction := {
  generateContent : InlineData → option string;
  parse_response : string → option ParsedData
}.

(** The body of the [try] block up to the record that line 152 builds. *)
Definition extract (api : Extraction) (file : File) (now : Z)
  : attempt Expense :=
  imagePart ← fileToGenerativePart file;
  text ← await Requesting (generateContent api imagePart);
  parsedData ← await Parsing (parse_response api text);
  mret (make_expense parsedData now).

Definition process_error : string :=
  "Failed to process receipt. Please try another image.".

(** Lines 87-92: what the handler does before its first [await]. *)
Definition handleImageChange_begin (file : option File) (st : State) : State :=
  match file with
  | None => st
  | Some f =>
      setIsLoading true (setImage (Some (object_url f)) (setError None st))
  end.

(** Lines 151-162: what the handler does when the [try] block has settled,
    on the state of that moment ([setExpenses] takes an updater). *)
Definition handleImageChange_settle (r : attempt Expense) (st : State)
  : State :=
  let st1 :=
    match r with
    | inr record => setExpenses (record :: expenses st) st
    | inl _ => setError (Some process_error) st
    end in
  setImage None (setIsLoading false st1).

(** A whole ingestion with nothing in between. *)
Definition handleImageChange (api : Extraction) (file : option File) (now : Z)
  (st : State) : State :=
  match file with
  | None => st
  | Some f =>
      handleImageChange_settle (extract api f now)
        (handleImageChange_begin file st)
  end.

(** ** List controller (lines 165-218) *)

Definition toggleSortOrder (st : State) : State :=
  setSortOrder (match sortOrder st with desc => asc | asc => desc end) st.

(** Line 171: the buffer is the record read back from its own text. *)
Definition deep_copy (expense : Expense) : option Expense :=
  JSON_parse (JSON_stringify (expense_to_json expense)) ≫= expense_of_json.

Definition handleEdit (expense : Expense) (st : State) : State :=
  setEditedExpense (deep_copy expense) (setEditingId (Some (id expense)) st).

Definition handleCancelEdit (st : State) : State :=
  setEditedExpense None (setEditingId None st).

(** [exp.id === editingId]: no number is [null]. *)
Definition is_editing (editing : option Z) (exp : Expense) : bool :=
  match editing with
  | Some i => id exp =? i
  | None => false
  end.

(** Line 180.  The buffer is set whenever the editing id is (lines 170-171
    and 175-176 write them together); without a buffer the record stays. *)
Definition handleSaveEdit (st : State) : State :=
  handleCancelEdit
    (setExpenses
       (map (fun exp =>
               if is_editing (editingId st) exp
               then default exp (editedExpense st) else exp)
            (expenses st))
       st).

(** [confirmed] is the answer of [window.confirm]. *)
Definition handleDelete (confirmed : bool) (i : Z) (st : State) : State :=
  if confirmed
  then setExpenses (filter (fun exp => id exp ≠ i) (expenses st)) st
  else st.

(** *** Numbers

    The numbers of JavaScript are the doubles.  Every integer of
    magnitude up to 2^53 is one; a larger integer is one when it has no
    more than 53 significant bits. *)

(** [Number.isSafeInteger]: the integers on which the arithmetic of
    doubles is the arithmetic of integers. *)
Definition safe_integer (z : Z) : Prop :=
  -9007199254740992 < z < 9007199254740992.

(** The double nearest to the integer [z], the even significand on a tie:
    what an addition makes of its exact result, and the reading of a
    literal of its value.  [ulp] is the distance of the doubles around
    [z].  The largest double is below 2^1024; see [Number_add]. *)
Definition double (z : Z) : Z :=
  let m := Z.abs z in
  if m <=? 9007199254740992 then z
  else
    let ulp := 2 ^ (Z.log2 m - 52) in
    let q := m / ulp in
    let r := m mod ulp in
    let q' :=
      if 2 * r <? ulp then q
      else if ulp <? 2 * r then q + 1
      else if Z.even q then q else q + 1 in
    Z.sgn z * (q' * ulp).

(** [a + b] for two integers that are doubles; [None] when the rounded
    sum is beyond the largest double, where the result is an infinity. *)
Definition Number_add (a b : Z) : option Z :=
  let sum := double (a + b) in
  if Z.abs sum <? 2 ^ 1024 then Some sum else None.

(** White space at the front of a string, which [parseFloat] skips
    ([TrimString]): the white space and line terminators of ECMAScript,
    those outside ASCII by the bytes of their UTF-8 form. *)
Definition is_space (c : ascii) : bool :=
  let n := N_of_ascii c in ((9 <=? n) && (n <=? 13) || (n =? 32))%N.

Fixpoint trim_start (s : string) : string :=
  match s with
  | EmptyString => s
  | String c r =>
      if is_space c then trim_start r
      else
        match s with
        | String "194" (String "160" r') => trim_start r'
        | String "225" (String "154" (String "128" r')) => trim_start r'
        | String "226" (String "128" (String c3 r')) =>
            let n := N_of_ascii c3 in
            if ((128 <=? n) && (n <=? 138) || (n =? 168) || (n =? 169)
                || (n =? 175))%N
            then trim_start r' else s
        | String "226" (String "129" (String "159" r')) => trim_start r'
        | String "227" (String "128" (String "128" r')) => trim_start r'
        | String "239" (String "187" (String "191" r')) => trim_start r'
        | _ => s
        end
  end.

(** *** The editing buffer (lines 190-218) *)

(** The value of a decimal digit. *)
Definition digit_of (c : ascii) : option Z :=
  let n := N_of_ascii c in
  if ((48 <=? n) && (n <=? 57))%N then Some (Z.of_N (n - 48)) else None.

(** The digits at the front of [s] read on top of [acc], and how many. *)
Fixpoint read_digits (s : string) (acc : Z) (count : nat) : Z * nat :=
  match s with
  | String c r =>
      match digit_of c with
      | Some d => read_digits r (10 * acc + d) (S count)
      | None => (acc, count)
      end
  | EmptyString => (acc, count)
  end.

(** [parseFloat] on the integer literals: the white space at the front is
    skipped, then an optional sign and the digits that follow are read,
    and their value is rounded to a double; [None] is [NaN], the string
    starting with no literal.  The built-in reads more: a fraction or an
    exponent behind the digits, a literal that starts with its point,
    [Infinity], and it yields an infinity for a literal beyond the
    largest double.  These values are no integers of the model, and on
    such strings the definition is not the built-in; the statements
    about typed numbers are for the text of safe integers. *)
Definition parseFloat (s : string) : option Z :=
  let '(negative, body) :=
    match trim_start s with
    | String "-" r => (true, r)
    | String "+" r => (false, r)
    | trimmed => (false, trimmed)
    end in
  match read_digits body 0 0 with
  | (_, O) => None
  | (n, _) => Some (double (if negative then - n else n))
  end.

(** [parseFloat(value) || 0]: [NaN] is falsy. *)
Definition number_input (value : string) : Z := or_else (parseFloat value) 0.

(** The [name]s of the inputs of the edit form (lines 284-292). *)
Inductive ExpenseField := f_merchant | f_date | f_total.

(** The [name]s of the inputs of a line of the edit form (lines 306-310). *)
Inductive ItemField :=
  f_description | f_description_en | f_quantity | f_unit_price | f_price.

Definition set_field (name : ExpenseField) (value : string) (prev : Expense)
  : Expense :=
  match name with
  | f_merchant =>
      {| id := id prev; merchant := Some value; date := date prev;
         total := total prev; currency := currency prev;
         items := items prev |}
  | f_date =>
      {| id := id prev; merchant := merchant prev; date := Some value;
         total := total prev; currency := currency prev;
         items := items prev |}
  | f_total =>
      {| id := id prev; merchant := merchant prev; date := date prev;
         total := Some (number_input value); currency := currency prev;
         items := items prev |}
  end.

Definition set_items (newItems : list LineItem) (prev : Expense) : Expense :=
  {| id := id prev; merchant := merchant prev; date := date prev;
     total := total prev; currency := currency prev; items := newItems |}.

Definition set_item_field (name : ItemField) (value : string)
  (item : LineItem) : LineItem :=
  match name with
  | f_description =>
      {| description := value; description_en := description_en item;
         quantity := quantity item; unit_price := unit_price item;
         price := price item |}
  | f_description_en =>
      {| description := description item; description_en := value;
         quantity := quantity item; unit_price := unit_price item;
         price := price item |}
  | f_quantity =>
      {| description := description item;
         description_en := description_en item;
         quantity := number_input value; unit_price := unit_price item;
         price := price item |}
  | f_unit_price =>
      {| description := description item;
         description_en := description_en item; quantity := quantity item;
         unit_price := number_input value; price := price item |}
  | f_price =>
      {| description := description item;
         description_en := description_en item; quantity := quantity item;
         unit_price := unit_price item; price := number_input value |}
  end.

(** The handlers below run from the edit form, which is on screen only
    while a buffer is set; with no buffer they have nothing to update. *)
Definition handleFieldChange (name : ExpenseField) (value : string)
  (st : State) : State :=
  setEditedExpense (set_field name value <$> editedExpense st) st.

(** [index] is the row the input sits in (line 304), so it is within
    [items].  Past the end JavaScript would grow the array by an object
    with the one property [name], for which [LineItem] has no value; the
    items stay as they are there. *)
Definition handleItemChange (index : nat) (name : ItemField) (value : string)
  (st : State) : State :=
  match editedExpense st with
  | Some buffer =>
      let newItems :=
        match items buffer !! index with
        | Some currentItem =>
            <[index := set_item_field name value currentItem]> (items buffer)
        | None => items buffer
        end in
      setEditedExpense (Some (set_items newItems buffer)) st
  | None => st
  end.

Definition blank_item : LineItem :=
  {| description := ""; description_en := ""; quantity := 1;
     unit_price := 0; price := 0 |}.

Definition handleAddItem (st : State) : State :=
  match editedExpense st with
  | Some buffer =>
      setEditedExpense (Some (set_items (items buffer ++ [blank_item]) buffer))
        st
  | None => st
  end.

(** [items.filter((_, i) => i !== index)]. *)
Definition handleRemoveItem (index : nat) (st : State) : State :=
  match editedExpense st with
  | Some buffer =>
      setEditedExpense (Some (set_items (delete index (items buffer)) buffer))
        st
  | None => st
  end.

(** ** Dates *)

(** [Date.parse] on the date-only form [YYYY-MM-DD] of the date-time string
    format, the form the request asks the model for (line 104) and the
    form a date input holds (line 288): the time value in milliseconds of
    that day's start in UTC.  [None] stands for every other string. *)

Definition leap_year (y : Z) : bool :=
  (y mod 4 =? 0) && (negb (y mod 100 =? 0) || (y mod 400 =? 0)).

Definition days_in_month (y m : Z) : Z :=
  if m =? 2 then (if leap_year y then 29 else 28)
  else if (m =? 4) || (m =? 6) || (m =? 9) || (m =? 11) then 30
  else 31.

(** Days from 1970-01-01 to January 1 of year [y]. *)
Definition DayFromYear (y : Z) : Z :=
  365 * (y - 1970) + (y - 1969) / 4 - (y - 1901) / 100 + (y - 1601) / 400.

(** Days from January 1 of [y] to the first of month [m]. *)
Fixpoint days_before_month (y : Z) (months : nat) : Z :=
  match months with
  | O => 0
  | S k => days_before_month y k + days_in_month y (Z.of_nat (S k))
  end.

Definition msPerDay : Z := 86400000.

(** The time value of the day [d] of month [m] of year [y], for a day
    that the calendar has. *)
Definition MakeDate (y m d : Z) : option Z :=
  if (1 <=? m) && (m <=? 12) && (1 <=? d) && (d <=? days_in_month y m)
  then Some ((DayFromYear y + days_before_month y (Z.to_nat (m - 1)) + (d - 1))
             * msPerDay)
  else None.

Definition Date_parse (s : string) : option Z :=
  match s with
  | String ya (String yb (String yc (String yd (String "-"
      (String ma (String mb (String "-"
        (String da (String db EmptyString))))))))) =>
      y3 ← digit_of ya; y2 ← digit_of yb; y1 ← digit_of yc; y0 ← digit_of yd;
      m1 ← digit_of ma; m0 ← digit_of mb;
      t1 ← digit_of da; t0 ← digit_of db;
      MakeDate (1000 * y3 + 100 * y2 + 10 * y1 + y0) (10 * m1 + m0)
        (10 * t1 + t0)
  | _ => None
  end.

(** ** Sorting and the aggregate (lines 220-230) *)

(** [(a.date ? new Date(a.date) : new Date(0)).getTime()]: a missing or
    empty date is the epoch; [None] is [NaN], the time of an invalid date. *)
Definition getTime (a : Expense) : option Z :=
  match date a with
  | Some d => if truthy d then Date_parse d else Some 0
  | None => Some 0
  end.

(** The comparator of line 220; a difference with [NaN] is [NaN]. *)
Definition compareFn (order : SortOrder) (a b : Expense) : option Z :=
  dateA ← getTime a; dateB ← getTime b;
  Some (match order with
        | desc => dateB - dateA
        | asc => dateA - dateB
        end).

(** [Array.prototype.sort] reads a [NaN] from the comparator as [0]. *)
Definition SortCompare {A} (comparefn : A → A → option Z) (x y : A) : Z :=
  default 0 (comparefn x y).

(** [Array.prototype.sort] is stable: an element goes behind the elements
    the comparator puts strictly before it and ahead of the rest. *)
Fixpoint sort_insert {A} (comparefn : A → A → option Z) (x : A) (l : list A)
  : list A :=
  match l with
  | [] => [x]
  | y :: l' =>
      if SortCompare comparefn x y <=? 0 then x :: l
      else y :: sort_insert comparefn x l'
  end.

Fixpoint Array_sort {A} (comparefn : A → A → option Z) (l : list A) : list A :=
  match l with
  | [] => []
  | x :: l' => sort_insert comparefn x (Array_sort comparefn l')
  end.

(** [totalExpenses]: [reduce] from the left, starting at [0], with the
    addition of doubles; [None] when the sum is no finite number, which
    stays so whatever is added to it. *)
Definition totalExpenses (st : State) : option Z :=
  fold_left
    (fun sum expense => s ← sum; Number_add s (or_else (total expense) 0))
    (expenses st) (Some 0).

(** The display copy.  An array is a reference into a heap of arrays, and
    [sort] sorts the array it is called on in place; line 220 calls it on
    the spread copy [[...expenses]], a new array. *)

Abbreviation Heap := (gmap nat (list Expense)).

(** [[...a]] *)
Definition spread (a : nat) (h : Heap) : option (nat * Heap) :=
  elements ← h !! a;
  let copy := fresh (dom h) in
  Some (copy, <[copy := elements]> h).

(** [a.sort(comparefn)], which returns [a]. *)
Definition sort_in_place (comparefn : Expense → Expense → option Z) (a : nat)
  (h : Heap) : option (nat * Heap) :=
  elements ← h !! a;
  Some (a, <[a := Array_sort comparefn elements]> h).

Definition render_sortedExpenses (order : SortOrder) (expenses_ref : nat)
  (h : Heap) : option (nat * Heap) :=
  '(copy, h1) ← spread expenses_ref h;
  sort_in_place (compareFn order) copy h1.

(** What [sortedExpenses] holds for a state. *)
Definition sortedExpenses (st : State) : list Expense :=
  Array_sort (compareFn (sortOrder st)) (expenses st).

(** ** The running application

    The component state, the store it persists to, and the files whose
    ingestion has begun and not settled. *)

Record World := {
  state : State;
  storage : LocalStorage;
  pending : list File
}.

#[global] Instance File_eq_dec : EqDecision File.
Proof. solve_decision. Defined.

(** [l] without the first [f] in it. *)
Fixpoint remove_one (f : File) (l : list File) : list File :=
  match l with
  | [] => []
  | g :: l' => if decide (f = g) then l' else g :: remove_one f l'
  end.

(** A change in the edit form. *)
Inductive BufferEdit :=
| FieldChanged (name : ExpenseField) (value : string)
| ItemChanged (index : nat) (name : ItemField) (value : string)
| ItemAdded
| ItemRemoved (index : nat).

Definition edit_buffer (b : BufferEdit) (st : State) : State :=
  match b with
  | FieldChanged name value => handleFieldChange name value st
  | ItemChanged index name value => handleItemChange index name value st
  | ItemAdded => handleAddItem st
  | ItemRemoved index => handleRemoveItem index st
  end.

(** What the user and the network can make happen. *)
Inductive Event :=
| FileSelected (file : option File)
| IngestionSettled (api : Extraction) (file : File) (now : Z)
| SortToggled
| EditClicked (expense : Expense)
| CancelClicked
| SaveClicked
| DeleteClicked (expense : Expense) (confirmed : bool)
| BufferEdited (b : BufferEdit).

Definition handle (ev : Event) (st : State) : State :=
  match ev with
  | FileSelected file => handleImageChange_begin file st
  | IngestionSettled api file now =>
      handleImageChange_settle (extract api file now) st
  | SortToggled => toggleSortOrder st
  | EditClicked expense => handleEdit expense st
  | CancelClicked => handleCancelEdit st
  | SaveClicked => handleSaveEdit st
  | DeleteClicked expense confirmed => handleDelete confirmed (id expense) st
  | BufferEdited b => edit_buffer b st
  end.

(** Whether the handler calls [setExpenses]; the array it sets is a new
    one each time, so the save effect runs in the commit that follows. *)
Definition sets_expenses (ev : Event) : bool :=
  match ev with
  | IngestionSettled api file now =>
      match extract api file now with inr _ => true | inl _ => false end
  | SaveClicked => true
  | DeleteClicked _ confirmed => confirmed
  | _ => false
  end.

(** The commit after a change of [expenses]: the save effect runs on the
    new state and its updates apply. *)
Definition commit (st : State) (ls : LocalStorage) : State * LocalStorage :=
  let '(updates, ls') := save_effect st ls in (apply_updates updates st, ls').

Definition dispatch (ev : Event) (w : World) : World :=
  let st := handle ev (state w) in
  let '(st', ls') :=
    if sets_expenses ev then commit st (storage w) else (st, storage w) in
  {| state := st'; storage := ls';
     pending :=
       match ev with
       | FileSelected (Some file) => file :: pending w
       | IngestionSettled _ file _ => remove_one file (pending w)
       | _ => pending w
       end |}.

(** The edit form replaces the view of the records whose [id] is the
    editing id (line 375). *)
Definition form_shown (st : State) : Prop :=
  ∃ e, e ∈ expenses st ∧ editingId st = Some (id e).

Definition row_shown (index : nat) (st : State) : Prop :=
  ∃ buffer, editedExpense st = Some buffer ∧
            (index < length (items buffer))%nat.

(** What is on screen to be clicked, and what the network can answer. *)
Definition enabled (ev : Event) (w : World) : Prop :=
  let st := state w in
  match ev with
  | FileSelected _ => isLoading st = false
  | IngestionSettled _ file _ => file ∈ pending w
  | SortToggled => expenses st ≠ []
  | EditClicked e | DeleteClicked e _ =>
      e ∈ expenses st ∧ editingId st ≠ Some (id e)
  | CancelClicked | SaveClicked => form_shown st
  | BufferEdited (ItemChanged index _ _) | BufferEdited (ItemRemoved index) =>
      form_shown st ∧ row_shown index st
  | BufferEdited _ => form_shown st
  end.

(** Loading the page on a store: the first render and the commits that
    its effects set off.  The effects of the first commit find no
    [userId] but for the identity effect.  In the second commit the load
    effect and the save effect both run on the state with the [userId] and
    no expenses yet; the restored expenses make a third commit, in which
    the save effect runs again. *)
Definition mount (uuid : string) (ls : LocalStorage) : option World :=
  '(updates1, ls1) ← identity_effect uuid ls;
  let st1 := apply_updates updates1 initial_state in
  let loaded := load_effect st1 ls1 in
  let '(saved, ls2) := save_effect st1 ls1 in
  let st2 := apply_updates (loaded ++ saved) st1 in
  let '(st3, ls3) :=
    match loaded with
    | SetExpenses _ :: _ => commit st2 ls2
    | _ => (st2, ls2)
    end in
  Some {| state := st3; storage := ls3; pending := [] |}.

Definition empty_storage (quota : nat) : LocalStorage :=
  {| entries := ∅; quota := quota |}.

(** The worlds the application gets into from a profile with an empty
    store, through the events that [ok] lets pass. *)
Inductive reachable (ok : Event → World → Prop) : World → Prop :=
| reach_first uuid quota w :
    mount uuid (empty_storage quota) = Some w → reachable ok w
| reach_reload uuid w w' :
    reachable ok w → mount uuid (storage w) = Some w' → reachable ok w'
| reach_event ev w :
    reachable ok w → enabled ev w → ok ev w → reachable ok (dispatch ev w).

Definition any_event : Event → World → Prop := fun _ _ => True.

(** The clock shows no [id] of the collection when an ingestion
    settles. *)
Definition clock_fresh (ev : Event) (w : World) : Prop :=
  match ev with
  | IngestionSettled _ _ now => now ∉ id <$> expenses (state w)
  | _ => True
  end.

(** What the store holds for the user of a world, read as records. *)
Definition persisted (w : World) : option (list Expense) :=
  user ← userId (state w);
  text ← getItem (storageKey user) (storage w);
  JSON_parse text ≫= expenses_of_json.

(** *** Invariants of the running application *)

(** What a store holds when the application wrote it: nothing at all, or
    a user and, under the user's key, the text of a collection that
    satisfies [Q]. *)
Definition store_inv (Q : list Expense → Prop) (ls : LocalStorage) : Prop :=
  entries ls = ∅ ∨
  ∃ user, user ≠ "" ∧ getItem userId_key ls = Some user ∧
          ∀ text, getItem (storageKey user) ls = Some text →
                  ∃ c, text = JSON_stringify (expenses_to_json c) ∧ Q c.

Record Inv (Q : list Expense → Prop) (w : World) : Prop := {
  inv_user :
    ∃ user, user ≠ "" ∧ userId (state w) = Some user ∧
            getItem userId_key (storage w) = Some user;
  inv_buffer :
    ∀ buffer, editedExpense (state w) = Some buffer →
              editingId (state w) = Some (id buffer);
  inv_expenses : Q (expenses (state w));
  inv_stored :
    ∀ user text,
      userId (state w) = Some user →
      getItem (storageKey user) (storage w) = Some text →
      ∃ c, text = JSON_stringify (expenses_to_json c) ∧ Q c
}.

(** No two records of a collection have one [id]. *)
Definition unique_ids (l : list Expense) : Prop := NoDup (id <$> l).

(** ** Sample data *)

Definition receipt_without_unit_price : ParsedData :=
  {| p_merchant := Some "Mart"; p_date := Some "2024-03-05";
     p_total := Some 1200; p_currency := Some "KRW";
     p_items := Some [ {| p_description := Some "우유";
                          p_description_en := Some "Milk";
                          p_quantity := None; p_unit_price := None;
                          p_price := Some 1200 |} ] |}.

Definition sample_time : Z := 1700000000000.

Definition sample_file : File :=
  {| file_type := "image/png"; object_url := "blob:receipt";
     reader_result := Some "data:image/png;base64,iVBORw0KGgo=" |}.


(** A model that answers every image with the sample receipt. *)
Definition sample_api : Extraction :=
  {| generateContent := fun _ => Some "{...}";
     parse_response := fun _ => Some receipt_without_unit_price |}.



Definition sample_uuid : string := "123e4567-e89b-12d3-a456-426614174000".

(** The application after its first load in a profile whose store has
    room for [quota] characters. *)
Definition started (quota : nat) : World :=
  default {| state := initial_state; storage := empty_storage quota;
             pending := [] |}
    (mount sample_uuid (empty_storage quota)).

(** One ingestion of the sample file, from the selection to the record. *)
Definition ingest_sample (now : Z) (w : World) : World :=
  dispatch (IngestionSettled sample_api sample_file now)
    (dispatch (FileSelected (Some sample_file)) w).

(** The record the sample receipt makes at the sample time. *)
Definition sample_record : Expense :=
  make_expense receipt_without_unit_price sample_time.

(** A second receipt, and a model that answers with it. *)
Definition cafe_receipt : ParsedData :=
  {| p_merchant := Some "Cafe"; p_date := Some "2024-03-06";
     p_total := Some 4500; p_currency := None;
     p_items := Some [ {| p_description := Some "Latte";
                          p_description_en := Some "Latte";
                          p_quantity := Some 1; p_unit_price := Some 4500;
                          p_price := Some 4500 |} ] |}.

Definition cafe_api : Extraction :=
  {| generateContent := fun _ => Some "{...}";
     parse_response := fun _ => Some cafe_receipt |}.

Definition cafe_record (now : Z) : Expense := make_expense cafe_receipt now.

Definition ingest_cafe (now : Z) (w : World) : World :=
  dispatch (IngestionSettled cafe_api sample_file now)
    (dispatch (FileSelected (Some sample_file)) w).

(** *** Notions used in the statements about the aggregate *)

(** The totals of a collection as [totalExpenses] adds them: [0] for a
    record with no total. *)
Definition totals (l : list Expense) : list Z :=
  (fun e => or_else (total e) 0) <$> l.

(** Every total is a safe integer, and so is every sum on the way, from
    [sum] on. *)
Fixpoint running_sums_safe (sum : Z) (l : list Z) : Prop :=
  match l with
  | [] => True
  | t :: rest =>
      safe_integer t ∧ safe_integer (sum + t) ∧
      running_sums_safe (sum + t) rest
  end.

(** A record with nothing but an [id] and a total. *)
Definition bare_record (i t : Z) : Expense :=
  {| id := i; merchant := None; date := None; total := Some t;
     currency := None; items := [] |}.

(** Three totals that leave the range of the safe integers. *)
Definition large_totals : State :=
  setExpenses [bare_record 1 9007199254740992; bare_record 2 1;
               bare_record 3 1] initial_state.

(** The reading of the aggregate as the sum of the totals in the
    integers. *)
Definition aggregate_is_exact_sum : Prop :=
  ∀ st, totalExpenses st = Some (foldr Z.add 0 (totals (expenses st))).

(** *** Notions used in the statements about the list controller *)

(** A record with another currency. *)
Definition set_currency (c : option string) (e : Expense) : Expense :=
  {| id := id e; merchant := merchant e; date := date e; total := total e;
     currency := c; items := items e |}.

(** The edits of the form one after the other. *)
Definition edit_buffer_all (edits : list BufferEdit) (st : State) : State :=
  foldl (fun s b => edit_buffer b s) st edits.

(** The time a record is sorted by: that of its date, the epoch for a
    record with no date. *)
Definition sort_key (e : Expense) : Z := default 0 (getTime e).

Definition in_order (order : SortOrder) (a b : Expense) : Prop :=
  match order with
  | asc => sort_key a ≤ sort_key b
  | desc => sort_key b ≤ sort_key a
  end.

(** Every date that is there is a calendar date in the form YYYY-MM-DD. *)
Definition dates_valid (l : list Expense) : Prop :=
  Forall (fun e => is_Some (getTime e)) l.

(** Two records for the examples: one with no date, one dated on the day
    before the epoch. *)
Definition undated_record : Expense :=
  {| id := 1; merchant := Some "Kiosk"; date := None; total := Some 300;
     currency := None; items := [] |}.

Definition old_record : Expense :=
  {| id := 2; merchant := Some "Archive"; date := Some "1969-12-31";
     total := None; currency := Some "usd"; items := [blank_item] |}.

Definition two_records (order : SortOrder) : State :=
  setSortOrder order (setExpenses [undated_record; old_record] initial_state).

(** The reading of the sort in which a record with no date comes before
    every record with one when the order is ascending. *)
Definition missing_date_earliest : Prop :=
  ∀ st a b (i j : nat),
    sortOrder st = asc → dates_valid (expenses st) →
    truthy (date a) = false → truthy (date b) = true →
    sortedExpenses st !! i = Some a → sortedExpenses st !! j = Some b →
    (i < j)%nat.

(** The identity of the sample profile and a component that has it. *)
Definition sample_user : string := "user_" +:+ sample_uuid.


(** *** Notions and sample data used in the further properties *)

(** The character [c] is nowhere in [s]. *)
Definition without (c : ascii) (s : string) : Prop :=
  c ∉ list_ascii_of_string s.

(** The [id]s of the collection, in its order. *)
Definition ids (st : State) : list Z := id <$> expenses st.

(** What the identity effect leaves on its first run in an empty store
    with room for a hundred characters. *)
Definition first_identity : list Update * LocalStorage :=
  default ([], empty_storage 100)
    (identity_effect sample_uuid (empty_storage 100)).

(** Two receipts of one day. *)
Definition tied_records : State :=
  setExpenses [cafe_record 1; cafe_record 2] initial_state.

(** Two records with one [id]. *)
Definition twin_records : State :=
  setExpenses [cafe_record sample_time; sample_record] initial_state.

(** The sample world with the sample receipt in it. *)
Definition one_receipt : World := ingest_sample sample_time (started 5000).

(** A component that edits the older of the two records. *)
Definition editing_old_record : State := handleEdit old_record (two_records desc).

(** The sample world with the sample receipt, after a reload. *)
Definition reloaded : World :=
  default (started 5000) (mount "another-uuid" (storage one_receipt)).

#[global] Instance without_dec c s : Decision (without c s).
Proof. unfold without. apply _. Defined.

(** A store in which another page of the origin has put an entry, and the
    world the first load makes of it. *)
Definition shared_store : LocalStorage :=
  {| entries := {[ "theme" := "dark" ]}; quota := 5000 |}.

Definition shared_world : World :=
  default (started 5000) (mount sample_uuid shared_store).

(** A file the reader yields a string without a comma for. *)
Definition headless_file : File :=
  {| file_type := "image/png"; object_url := "blob:odd";
     reader_result := Some "iVBORw0KGgo=" |}.

(** Whether an ingestion is under way, and with which file. *)
Definition in_flight (w : World) : Prop :=
  isLoading (state w) = false ∧ pending w = [] ∨
  isLoading (state w) = true ∧ ∃ f, pending w = [f].

(** The editing id and the buffer go together: both unset, or both set,
    the buffer with the editing id, which is the [id] of a record of the
    collection. *)
Definition editor_consistent (st : State) : Prop :=
  match editingId st, editedExpense st with
  | None, None => True
  | Some i, Some buffer => id buffer = i ∧ i ∈ ids st
  | _, _ => False
  end.

(** The [id]s after an event, from the [id]s before it. *)
Definition ids_after (ev : Event) (before : list Z) : list Z :=
  match ev with
  | IngestionSettled api file now =>
      match extract api file now with
      | inr _ => now :: before
      | inl _ => before
      end
  | DeleteClicked e true => filter (fun i => i ≠ id e) before
  | _ => before
  end.

(** * Properties *)

(** ** Truthiness *)

Lemma or_else_Z_default (a : option Z) : or_else a 0 = default 0 a.
Proof.
  destruct a as [x|]; simpl; [|done].
  unfold truthy, Z_truthy. destruct (Z.eqb_spec x 0); simpl; congruence.
Qed.

Lemma or_else_Z_nonzero (x d : Z) : x ≠ 0 → or_else (Some x) d = x.
Proof.
  intros Hx. simpl. unfold truthy, Z_truthy.
  destruct (Z.eqb_spec x 0); simpl; congruence.
Qed.

(** ** JSON text *)

Lemma string_app_cons c (s t : string) : String c s +:+ t = String c (s +:+ t).
Proof. reflexivity. Qed.

Lemma string_app_nil_l (s : string) : "" +:+ s = s.
Proof. reflexivity. Qed.

Lemma string_app_nil_r (s : string) : s +:+ "" = s.
Proof. induction s as [|c s IH]; [done|]. by rewrite string_app_cons, IH. Qed.

Lemma string_app_assoc (s t u : string) : (s +:+ t) +:+ u = s +:+ t +:+ u.
Proof. induction s as [|c s IH]; [done|]. by rewrite !string_app_cons, IH. Qed.

Lemma string_length_app (s t : string) :
  String.length (s +:+ t) = (String.length s + String.length t)%nat.
Proof. induction s as [|c s IH]; [done|]. rewrite string_app_cons. simpl. by rewrite IH. Qed.

(** *** Numbers *)

Lemma span_digits_uint d rest :
  no_digit_head rest →
  span_digits (NilEmpty.string_of_uint d +:+ rest)
  = (NilEmpty.string_of_uint d, rest).
Proof.
  intros Hrest. induction d; simpl; rewrite ?string_app_cons; simpl; rewrite ?IHd; try done.
  rewrite string_app_nil_l. destruct rest as [|c r]; [done|]. simpl in *. by rewrite Hrest.
Qed.

Lemma to_uint_no_leading_zero p d : Pos.to_uint p ≠ Decimal.D0 d.
Proof.
  pose proof (Unsigned.to_of (Pos.to_uint p)) as H.
  rewrite Unsigned.of_to in H. simpl in H.
  pose proof (Unsigned.to_uint_nonzero p) as Hnz.
  intros Heq.
  destruct (Decimal.nzhead (Pos.to_uint p)) eqn:Hnil;
    [ apply unorm_0 in Hnil; congruence
    | rewrite unorm_nzhead in H by congruence;
      rewrite Heq in H at 1; symmetry in H; by apply nzhead_nonzero in H .. ].
Qed.

Lemma parse_number_pos (p : positive) (rest : string) (negative : bool) :
  no_digit_head rest →
  (let '(ds, rest') := span_digits (NilZero.string_of_uint (Pos.to_uint p) +:+ rest) in
   match ds with
   | String "0" (String _ _) => None
   | _ =>
      d ← NilZero.uint_of_string ds;
      Some (Z.of_int (if negative then Decimal.Neg d else Decimal.Pos d), rest')
   end) = Some (Z.of_int (if negative then Decimal.Neg (Pos.to_uint p) else Decimal.Pos (Pos.to_uint p)), rest).
Proof.
  intros Hrest.
  pose proof (Unsigned.to_uint_nonnil p) as Hnn.
  pose proof (to_uint_no_leading_zero p) as Hlz.
  assert (NilZero.string_of_uint (Pos.to_uint p) = NilEmpty.string_of_uint (Pos.to_uint p)) as ->.
  { by destruct (Pos.to_uint p). }
  rewrite span_digits_uint by done.
  assert (NilZero.uint_of_string (NilEmpty.string_of_uint (Pos.to_uint p)) = Some (Pos.to_uint p)) as Hu.
  { rewrite <- (NilZero.usu _ Hnn). by destruct (Pos.to_uint p). }
  destruct (Pos.to_uint p) as [|d| | | | | | | | |] eqn:E; try (by exfalso); try (simpl in *; by rewrite Hu).
  exfalso. by apply (Hlz d).
Qed.

Lemma parse_number_print n rest :
  no_digit_head rest →
  parse_number (print_number n +:+ rest) = Some (n, rest).
Proof.
  intros Hrest. rewrite <- (DecimalZ.of_to n) at 2.
  unfold print_number, parse_number. destruct n as [|p|p]; simpl Z.to_int.
  - simpl. destruct rest as [|c r]; simpl in *; [done|]. by rewrite Hrest.
  - cbn [NilZero.string_of_int].
    pose proof (parse_number_pos p rest false Hrest) as H.
    destruct (NilZero.string_of_uint (Pos.to_uint p) +:+ rest) as [|c r] eqn:E.
    + exact H.
    + destruct (decide (c = "-"%char)) as [->|Hc].
      * exfalso. destruct (Pos.to_uint p); discriminate E.
      * assert ((let '(negative, body) := match String c r with String "-" r0 => (true, r0) | _ => (false, String c r) end in
                 let '(ds, rest0) := span_digits body in
                 match ds with String "0" (String _ _) => None | _ => d ← NilZero.uint_of_string ds; Some (Z.of_int (if negative then Decimal.Neg d else Decimal.Pos d), rest0) end)
                = (let '(ds, rest0) := span_digits (String c r) in
                 match ds with String "0" (String _ _) => None | _ => d ← NilZero.uint_of_string ds; Some (Z.of_int (Decimal.Pos d), rest0) end)) as ->; [|exact H].
        destruct c as [[] [] [] [] [] [] [] []]; try reflexivity. by exfalso.
  - cbn [NilZero.string_of_int]. rewrite string_app_cons.
    exact (parse_number_pos p rest true Hrest).
Qed.

Lemma print_number_head n :
  ∃ c r, print_number n = String c r ∧ (is_digit c = true ∨ c = "-"%char).
Proof.
  unfold print_number. destruct n as [|p|p]; simpl Z.to_int; cbn [NilZero.string_of_int].
  - eexists _, _. split; [reflexivity|]. by left.
  - pose proof (Unsigned.to_uint_nonnil p).
    destruct (Pos.to_uint p); try done; eexists _, _; (split; [reflexivity|]); by left.
  - eexists _, _. split; [reflexivity|]. by right.
Qed.

(** *** Strings *)

(** Reading undoes the escape of each of the 256 characters. *)
Lemma parse_string_body_escape_char c t :
  parse_string_body (escape_char c +:+ t) = cons_char c (parse_string_body t).
Proof. destruct c as [[] [] [] [] [] [] [] []]; reflexivity. Qed.

Lemma parse_string_body_escape s rest :
  parse_string_body (escape s +:+ String quote rest) = Some (s, rest).
Proof.
  induction s as [|c s IH]; [done|].
  simpl escape. rewrite string_app_assoc, parse_string_body_escape_char, IH. done.
Qed.

Lemma parse_string_quoted s rest :
  ∃ r, QuoteJSONString s +:+ rest = String quote r ∧
       parse_string_body r = Some (s, rest).
Proof.
  exists (escape s +:+ String quote rest). split.
  - unfold QuoteJSONString. by rewrite string_app_cons, string_app_assoc.
  - apply parse_string_body_escape.
Qed.

(** *** Values *)

Lemma size_pos j : (1 ≤ size j)%nat.
Proof. destruct j; simpl; lia. Qed.

(** A digit or a minus sign takes [parse_value] to its last arm. *)
Lemma number_head_dispatch c :
  is_digit c = true ∨ c = "-"%char →
  value_head c ∧
  Ascii.eqb c "n" = false ∧ Ascii.eqb c "t" = false ∧ Ascii.eqb c "f" = false ∧
  Ascii.eqb c quote = false ∧ Ascii.eqb c "[" = false ∧ Ascii.eqb c "{" = false.
Proof.
  intros [H| ->]; [|by repeat split].
  destruct c as [[] [] [] [] [] [] [] []]; try discriminate H; by repeat split.
Qed.

Lemma stringify_head j :
  ∃ c r, JSON_stringify j = String c r ∧ value_head c.
Proof.
  destruct j as [|[]|n|s|l|m]; try (by eexists _, _; split; [reflexivity|by repeat split]).
  destruct (print_number_head n) as (c & r & Hp & Hc).
  exists c, r. split; [exact Hp|]. by apply number_head_dispatch.
Qed.

Lemma skip_ws_head c r : is_ws c = false → skip_ws (String c r) = String c r.
Proof. intros H. simpl. by rewrite H. Qed.

#[local] Arguments join : simpl never.
#[local] Arguments JSON_stringify : simpl never.

Lemma join_one sep (x : string) : join sep [x] = x.
Proof. reflexivity. Qed.

Lemma join_cons sep (x y : string) l :
  join sep (x :: y :: l) = x +:+ sep +:+ join sep (y :: l).
Proof. reflexivity. Qed.

Lemma parse_elements_stringify value (l : list json) x n rest :
  (length (x :: l) ≤ n)%nat →
  Forall (fun y => ∀ rest', no_digit_head rest' →
                    value (JSON_stringify y +:+ rest') = Some (y, rest')) (x :: l) →
  parse_elements value n (join "," (map JSON_stringify (x :: l)) +:+ "]" +:+ rest)
  = Some (x :: l, rest).
Proof.
  revert x n. induction l as [|y l IH]; intros x n Hn Hall;
    (destruct n as [|n]; [simpl in Hn; lia|]); cbn [map parse_elements].
  - rewrite join_one, (Forall_inv Hall) by done. by simpl.
  - rewrite join_cons, !string_app_assoc, (Forall_inv Hall) by done. simpl.
    rewrite string_app_nil_l. change (JSON_stringify y :: map JSON_stringify l) with (map JSON_stringify (y :: l)).
    rewrite IH; [done| simpl in *; lia | by apply Forall_inv_tail in Hall].
Qed.

Lemma parse_members_stringify value (m : list (string * json)) kv n rest :
  (length (kv :: m) ≤ n)%nat →
  Forall (fun y => ∀ rest', no_digit_head rest' →
                    value (JSON_stringify (snd y) +:+ rest') = Some (snd y, rest'))
    (kv :: m) →
  parse_members value n (join "," (map print_member (kv :: m)) +:+ "}" +:+ rest)
  = Some (kv :: m, rest).
Proof.
  revert kv n. induction m as [|y m IH]; intros [k v] n Hn Hall;
    (destruct n as [|n]; [simpl in Hn; lia|]); cbn [map parse_members].
  - rewrite join_one. unfold print_member at 1. cbn [fst snd].
    rewrite !string_app_assoc.
    destruct (parse_string_quoted k (":" +:+ JSON_stringify v +:+ "}" +:+ rest))
      as (r & -> & Hr).
    pose proof (Forall_inv Hall) as Hv. cbn [snd] in Hv.
    simpl. rewrite Hr. simpl. rewrite string_app_nil_l, Hv by done. by simpl.
  - rewrite join_cons. unfold print_member at 1. cbn [fst snd].
    rewrite !string_app_assoc.
    destruct (parse_string_quoted k
                (":" +:+ JSON_stringify v +:+ "," +:+
                   join "," (print_member y :: map print_member m)
                   +:+ "}" +:+ rest))
      as (r & -> & Hr).
    pose proof (Forall_inv Hall) as Hv. cbn [snd] in Hv.
    simpl. rewrite Hr. simpl. rewrite string_app_nil_l, Hv by done. simpl.
    rewrite string_app_nil_l.
    change (print_member y :: map print_member m)
      with (map print_member (y :: m)).
    rewrite IH; [done| simpl in *; lia | by apply Forall_inv_tail in Hall].
Qed.

Lemma expect_head_ne c r (a : ascii) :
  c ≠ a → expect (String a "") (String c r) = None.
Proof.
  intros H. simpl. destruct (Ascii.eqb_spec a c); [congruence|done].
Qed.

Lemma stringify_arr l :
  JSON_stringify (JArr l) = "[" +:+ join "," (map JSON_stringify l) +:+ "]".
Proof. reflexivity. Qed.

Lemma stringify_obj m :
  JSON_stringify (JObj m) = "{" +:+ join "," (map print_member m) +:+ "}".
Proof. reflexivity. Qed.

Lemma length_le_sum {A} (g : A → nat) (l : list A) :
  (∀ x, 1 ≤ g x)%nat → (length l ≤ list_sum (map g l))%nat.
Proof.
  intros Hg. induction l as [|y l IH]; simpl; [lia|]. specialize (Hg y). lia.
Qed.

Lemma elem_le_sum {A} (g : A → nat) (l : list A) y :
  y ∈ l → (g y ≤ list_sum (map g l))%nat.
Proof. induction 1; simpl in *; lia. Qed.

(** With fuel for its size, [parse_value] reads the text of a value back
    and stops behind it. *)
Lemma parse_value_stringify j :
  ∀ fuel rest, (size j ≤ fuel)%nat → no_digit_head rest →
    parse_value fuel (JSON_stringify j +:+ rest) = Some (j, rest).
Proof.
  induction j as [|b|n|s|l IH|m IH] using json_ind; intros fuel rest Hfuel Hrest;
    (destruct fuel as [|fuel]; [pose proof (size_pos JNull); simpl in Hfuel; lia|]).
  - reflexivity.
  - by destruct b.
  - change (JSON_stringify (JNum n)) with (print_number n).
    destruct (print_number_head n) as (c & r & Hp & Hc).
    pose proof (parse_number_print n rest Hrest) as Hn.
    rewrite Hp in *. rewrite string_app_cons in *.
    destruct (number_head_dispatch c Hc) as ((Hws & _) & H1 & H2 & H3 & H4 & H5 & H6).
    cbn [parse_value]. rewrite skip_ws_head by done.
    rewrite H1, H2, H3, H4, H5, H6, Hn. done.
  - change (JSON_stringify (JStr s)) with (QuoteJSONString s).
    destruct (parse_string_quoted s rest) as (r & -> & Hr).
    cbn [parse_value]. rewrite skip_ws_head by done. simpl. rewrite Hr. done.
  - rewrite stringify_arr, string_app_cons, string_app_nil_l, string_app_cons. cbn [parse_value].
    rewrite skip_ws_head by done. simpl Ascii.eqb. cbv iota.
    destruct l as [|x l]; [done|].
    destruct (stringify_head x) as (c & r & Hx & Hws & Hc & _).
    assert (∃ r', join "," (map JSON_stringify (x :: l)) +:+ "]" +:+ rest = String c r')
      as [r' Hj].
    { destruct l; cbn [map]; rewrite ?join_one, ?join_cons, Hx, !string_app_cons; eauto. }
    rewrite string_app_assoc, Hj, skip_ws_head, expect_head_ne, <- Hj by done.
    rewrite parse_elements_stringify; [done| | ].
    + simpl in Hfuel. pose proof (length_le_sum size l size_pos).
      pose proof (size_pos x). simpl. lia.
    + apply Forall_forall. intros y Hy rest' Hrest'.
      rewrite Forall_forall in IH. apply IH; [done| |done].
      pose proof (elem_le_sum size _ _ Hy). simpl in *. lia.
  - rewrite stringify_obj, string_app_cons, string_app_nil_l, string_app_cons. cbn [parse_value].
    rewrite skip_ws_head by done. simpl Ascii.eqb. cbv iota.
    destruct m as [|kv m]; [done|].
    assert (∃ r', join "," (map print_member (kv :: m)) +:+ "}" +:+ rest
                  = String quote r') as [r' Hj].
    { destruct m; cbn [map]; rewrite ?join_one, ?join_cons;
        unfold print_member at 1, QuoteJSONString; rewrite !string_app_cons; eauto. }
    rewrite string_app_assoc, Hj, skip_ws_head, expect_head_ne, <- Hj by done.
    rewrite parse_members_stringify; [done| | ].
    + simpl in Hfuel.
      pose proof (length_le_sum (fun kv => size (snd kv)) m
                    (fun kv => size_pos (snd kv))).
      pose proof (size_pos (snd kv)). simpl. lia.
    + apply Forall_forall. intros y Hy rest' Hrest'.
      rewrite Forall_forall in IH. apply IH; [done| |done].
      pose proof (elem_le_sum (fun kv => size (snd kv)) _ _ Hy).
      simpl in *. lia.
Qed.

Lemma length_join sep (l : list string) :
  (list_sum (map String.length l) ≤ String.length (join sep l))%nat.
Proof.
  induction l as [|x [|y l] IH].
  - cbv. lia.
  - rewrite join_one. unfold list_sum. cbn [map foldr fold_right]. lia.
  - rewrite join_cons, !string_length_app. unfold list_sum in *.
    cbn [map foldr fold_right] in *. lia.
Qed.

(** The text of a value is as long as the value is big at least. *)
Lemma size_le_length j : (size j ≤ String.length (JSON_stringify j))%nat.
Proof.
  induction j as [|b|n|s|l IH|m IH] using json_ind.
  - simpl. lia.
  - destruct b; simpl; lia.
  - destruct (print_number_head n) as (c & r & Hp & _).
    change (JSON_stringify (JNum n)) with (print_number n). rewrite Hp. simpl. lia.
  - change (JSON_stringify (JStr s)) with (QuoteJSONString s).
    unfold QuoteJSONString. simpl. lia.
  - rewrite stringify_arr, !string_length_app. cbn [size].
    pose proof (length_join "," (map JSON_stringify l)) as Hj.
    assert (list_sum (map size l) ≤ list_sum (map String.length (map JSON_stringify l)))%nat.
    { clear Hj. induction IH as [|x l Hx _ IHl]; simpl; lia. }
    simpl String.length. lia.
  - rewrite stringify_obj, !string_length_app. cbn [size].
    pose proof (length_join "," (map print_member m)) as Hj.
    assert (list_sum (map (fun kv => size (snd kv)) m)
            ≤ list_sum (map String.length (map print_member m)))%nat.
    { clear Hj. induction IH as [|x l Hx _ IHl]; [simpl; lia|].
      unfold list_sum in *. cbn [map foldr fold_right].
      unfold print_member at 1. rewrite !string_length_app. lia. }
    simpl String.length. lia.
Qed.

(** [JSON.parse] undoes [JSON.stringify]. *)
Lemma JSON_parse_stringify j : JSON_parse (JSON_stringify j) = Some j.
Proof.
  unfold JSON_parse. rewrite <- (string_app_nil_r (JSON_stringify j)) at 2.
  rewrite parse_value_stringify; [done| |done].
  pose proof (size_le_length j). lia.
Qed.

(** ** Item normalisation *)

Lemma normalize_item_quantity item :
  p_quantity item = None → quantity (normalize_item item) = 1.
Proof. intros H. simpl. by rewrite H. Qed.

Lemma normalize_item_unit_price item :
  p_unit_price item = None →
  unit_price (normalize_item item) = default 0 (p_price item).
Proof.
  intros H. simpl. rewrite H. unfold js_or. simpl. apply or_else_Z_default.
Qed.

Lemma normalize_item_price item :
  p_price item = None → price (normalize_item item) = 0.
Proof. intros H. simpl. by rewrite H. Qed.

(** C2: every line item of a parsed response is normalised on its way into
    the record: a missing quantity becomes 1, a missing unit price becomes
    the item's price (0 when that is missing too), a missing price becomes
    0; so an item with no unit price and price 1200 gets unit price 1200. *)
Theorem items_normalized (parsedData : ParsedData) (now : Z) (i : nat)
    (item : ParsedItem) :
  default [] (p_items parsedData) !! i = Some item →
  ∃ n, items (make_expense parsedData now) !! i = Some n ∧
       n = normalize_item item ∧
       (p_quantity item = None → quantity n = 1) ∧
       (p_unit_price item = None → unit_price n = default 0 (p_price item)) ∧
       (p_price item = None → price n = 0) ∧
       (p_unit_price item = None → p_price item = Some 1200 →
        unit_price n = 1200).
Proof.
  intros Hi. exists (normalize_item item). split.
  - simpl. by rewrite list_lookup_fmap, Hi.
  - split; [done|].
    split; [apply normalize_item_quantity|].
    split; [apply normalize_item_unit_price|].
    split; [apply normalize_item_price|].
    intros Hu Hp. rewrite (normalize_item_unit_price _ Hu), Hp. done.
Qed.

Lemma items_normalized_witness :
  ∃ n, items (make_expense receipt_without_unit_price 1700000000000) !! 0%nat
       = Some n ∧ quantity n = 1 ∧ unit_price n = 1200 ∧ price n = 1200.
Proof.
  destruct (items_normalized receipt_without_unit_price 1700000000000 0
              {| p_description := Some "우유"; p_description_en := Some "Milk";
                 p_quantity := None; p_unit_price := None;
                 p_price := Some 1200 |} eq_refl)
    as (n & Hn & Heq & Hq & Hu & _ & _).
  exists n. split; [exact Hn|]. split; [exact (Hq eq_refl)|].
  split; [exact (Hu eq_refl)|]. rewrite Heq. reflexivity.
Defined.

(** C10: a unit price of 0 is falsy, so it is treated like a missing one:
    with a price [p] other than 0 the normalised unit price is [p]. *)
Theorem zero_unit_price_overwritten (item : ParsedItem) (p : Z) :
  p_unit_price item = Some 0 → p_price item = Some p → p ≠ 0 →
  unit_price (normalize_item item) = p.
Proof.
  intros Hu Hp Hnz. simpl. rewrite Hu, Hp. unfold js_or. simpl.
  change (or_else (Some p) 0 = p). by apply or_else_Z_nonzero.
Qed.

Lemma zero_unit_price_overwritten_witness :
  unit_price (normalize_item
                {| p_description := Some "Bag"; p_description_en := Some "Bag";
                   p_quantity := Some 3; p_unit_price := Some 0;
                   p_price := Some 500 |}) = 500.
Proof.
  apply (zero_unit_price_overwritten
           {| p_description := Some "Bag"; p_description_en := Some "Bag";
              p_quantity := Some 3; p_unit_price := Some 0;
              p_price := Some 500 |} 500); [reflexivity | reflexivity | lia].
Defined.

(** ** Currency symbols *)

(** C9: a currency that is missing or no label of the switch gets the
    default symbol, the won sign; a code that is KRW or WON in upper case
    gets the won sign, USD the dollar sign and EUR the euro sign. *)
Theorem getCurrencySymbol_default (currency : option string) :
  (unrecognized currency → getCurrencySymbol currency = won_sign) ∧
  (∀ c, currency = Some c →
        (toUpperCase c = "KRW" ∨ toUpperCase c = "WON" →
         getCurrencySymbol currency = "₩") ∧
        (toUpperCase c = "USD" → getCurrencySymbol currency = "$") ∧
        (toUpperCase c = "EUR" → getCurrencySymbol currency = "€")) ∧
  getCurrencySymbol (Some "KRW") = "₩" ∧
  getCurrencySymbol (Some "WON") = "₩" ∧
  getCurrencySymbol (Some "USD") = "$" ∧
  getCurrencySymbol (Some "EUR") = "€".
Proof.
  split; [|split; [|by repeat split]].
  - destruct currency as [c|]; [|done].
    unfold unrecognized, recognized_codes, getCurrencySymbol. simpl. intros Hc.
    repeat case_decide; try done; simplify_eq; exfalso; apply Hc; set_solver.
  - intros c ->. unfold getCurrencySymbol. simpl.
    repeat split; [intros [-> | ->]| intros -> ..]; reflexivity.
Qed.

Lemma getCurrencySymbol_default_witness :
  getCurrencySymbol (Some "jpy") = "₩" ∧ getCurrencySymbol None = "₩".
Proof.
  split.
  - apply (proj1 (getCurrencySymbol_default (Some "jpy"))).
    unfold unrecognized, recognized_codes. simpl.
    intros H. repeat (apply elem_of_cons in H as [H|H]; [discriminate|]).
    by apply elem_of_nil in H.
  - apply (proj1 (getCurrencySymbol_default None)). exact I.
Defined.

(** ** Records and their text *)

Lemma item_of_to_json (item : LineItem) :
  item_of_json (item_to_json item) = Some item.
Proof. by destruct item. Qed.

Lemma expense_of_to_json (e : Expense) :
  expense_of_json (expense_to_json e) = Some e.
Proof.
  destruct e as [i [m|] [d|] [t|] [c|] its]; simpl;
    rewrite (mapM_fmap_Some _ _ _ item_of_to_json); reflexivity.
Qed.

Lemma expenses_of_to_json (l : list Expense) :
  expenses_of_json (expenses_to_json l) = Some l.
Proof. apply (mapM_fmap_Some _ _ _ expense_of_to_json). Qed.

(** Reading back the text of a collection gives the collection. *)
Lemma stored_text_round_trip (l : list Expense) :
  JSON_parse (JSON_stringify (expenses_to_json l)) ≫= expenses_of_json
  = Some l.
Proof. rewrite JSON_parse_stringify. apply expenses_of_to_json. Qed.

Lemma deep_copy_same (e : Expense) : deep_copy e = Some e.
Proof.
  unfold deep_copy. rewrite JSON_parse_stringify. apply expense_of_to_json.
Qed.

Lemma stored_text_truthy (l : list Expense) :
  truthy (JSON_stringify (expenses_to_json l)) = true.
Proof. unfold expenses_to_json. by rewrite stringify_arr. Qed.

(** ** localStorage *)

Lemma setItem_Some key value ls ls' :
  setItem key value ls = Some ls' →
  entries ls' = <[key := value]> (entries ls) ∧ quota ls' = quota ls.
Proof. unfold setItem. case_decide; [|done]. by intros [= <-]. Qed.

Lemma getItem_setItem key value ls ls' :
  setItem key value ls = Some ls' → getItem key ls' = Some value.
Proof.
  intros [H _]%setItem_Some. unfold getItem. rewrite H.
  apply lookup_insert_eq.
Qed.

Lemma getItem_setItem_ne key key' value ls ls' :
  key ≠ key' → setItem key value ls = Some ls' →
  getItem key' ls' = getItem key' ls.
Proof.
  intros Hne [H _]%setItem_Some. unfold getItem. rewrite H.
  by apply lookup_insert_ne.
Qed.

Lemma storageKey_ne_userId_key user : storageKey user ≠ userId_key.
Proof. discriminate. Qed.

Lemma storageKey_inj user user' :
  storageKey user = storageKey user' → user = user'.
Proof. unfold storageKey. rewrite !string_app_cons, !string_app_nil_l. by intros [=]. Qed.

Lemma truthy_nonempty (s : string) : truthy s = true ↔ s ≠ "".
Proof. by destruct s. Qed.

(** ** The effects on the store *)

Lemma save_effect_written st ls user :
  userId st = Some user → user ≠ "" →
  save_effect st ls =
    match setItem (storageKey user)
            (JSON_stringify (expenses_to_json (expenses st))) ls with
    | Some ls' => ([], ls')
    | None => ([SetError save_error], ls)
    end.
Proof.
  intros Hu Hne. unfold save_effect. rewrite Hu.
  apply truthy_nonempty in Hne. by rewrite Hne.
Qed.

Lemma load_effect_stored st ls user (l : list Expense) :
  userId st = Some user → user ≠ "" →
  getItem (storageKey user) ls
  = Some (JSON_stringify (expenses_to_json l)) →
  load_effect st ls = [SetExpenses l].
Proof.
  intros Hu Hne Hget. unfold load_effect. rewrite Hu, Hget.
  apply truthy_nonempty in Hne. rewrite Hne.
  change (truthy (Some ?s)) with (truthy s).
  by rewrite stored_text_truthy, stored_text_round_trip.
Qed.

(** ** Handlers and the state they leave *)

Lemma extract_id api file now r : extract api file now = inr r → id r = now.
Proof.
  unfold extract, fileToGenerativePart.
  destruct (reader_result file); [|done]. simpl.
  destruct (generateContent api _); [|done]. simpl.
  destruct (parse_response api _); [|done]. simpl.
  by intros [= <-].
Qed.

Lemma settle_expenses r st :
  expenses (handleImageChange_settle r st) =
    match r with inr record => record :: expenses st | inl _ => expenses st end.
Proof. by destruct r. Qed.

Lemma edit_buffer_expenses b st : expenses (edit_buffer b st) = expenses st.
Proof.
  destruct b; simpl; unfold handleItemChange, handleAddItem, handleRemoveItem;
    try done; by destruct (editedExpense st).
Qed.

Lemma edit_buffer_userId b st : userId (edit_buffer b st) = userId st.
Proof.
  destruct b; simpl; unfold handleItemChange, handleAddItem, handleRemoveItem;
    try done; by destruct (editedExpense st).
Qed.

Lemma edit_buffer_editingId b st : editingId (edit_buffer b st) = editingId st.
Proof.
  destruct b; simpl; unfold handleItemChange, handleAddItem, handleRemoveItem;
    try done; by destruct (editedExpense st).
Qed.

(** An edit of the form changes the buffer and leaves its [id] alone. *)
Lemma edit_buffer_id b st buffer' :
  editedExpense (edit_buffer b st) = Some buffer' →
  ∃ buffer, editedExpense st = Some buffer ∧ id buffer' = id buffer.
Proof.
  destruct b as [name value|index name value| |index]; simpl;
    unfold handleItemChange, handleAddItem, handleRemoveItem;
    destruct (editedExpense st) as [buffer|] eqn:E; simpl; rewrite ?E;
    try done; intros [= <-]; exists buffer; (split; [done|]); try done.
  by destruct name.
Qed.

Lemma edit_buffer_Some b st buffer :
  editedExpense st = Some buffer → is_Some (editedExpense (edit_buffer b st)).
Proof.
  intros H. destruct b; simpl;
    unfold handleItemChange, handleAddItem, handleRemoveItem;
    rewrite H; simpl; eauto.
Qed.

Lemma handle_userId ev st : userId (handle ev st) = userId st.
Proof.
  destruct ev as [[f|]|api f now| |e| | |e []|b]; simpl; try done.
  - by destruct (extract api f now).
  - apply edit_buffer_userId.
Qed.

Lemma handle_expenses ev st :
  expenses (handle ev st) =
    match ev with
    | IngestionSettled api file now =>
        match extract api file now with
        | inr record => record :: expenses st
        | inl _ => expenses st
        end
    | SaveClicked =>
        map (fun exp => if is_editing (editingId st) exp
                        then default exp (editedExpense st) else exp)
          (expenses st)
    | DeleteClicked e true => filter (fun exp => id exp ≠ id e) (expenses st)
    | _ => expenses st
    end.
Proof.
  destruct ev as [[f|]|api f now| |e| | |e []|b]; simpl; try done.
  - by destruct (extract api f now).
  - apply edit_buffer_expenses.
Qed.

Lemma handle_buffer ev st :
  (∀ buffer, editedExpense st = Some buffer →
             editingId st = Some (id buffer)) →
  ∀ buffer, editedExpense (handle ev st) = Some buffer →
            editingId (handle ev st) = Some (id buffer).
Proof.
  intros Hinv buffer.
  destruct ev as [[f|]|api f now| |e| | |e []|b]; simpl; try done;
    try (by apply Hinv).
  - destruct (extract api f now); simpl; apply Hinv.
  - rewrite deep_copy_same. by intros [= <-].
  - rewrite edit_buffer_editingId.
    intros (buffer0 & H0 & ->)%edit_buffer_id. by apply Hinv.
Qed.

(** ** The commit after a change of the expenses *)

Lemma commit_spec st ls user :
  userId st = Some user → user ≠ "" →
  commit st ls =
    match setItem (storageKey user)
            (JSON_stringify (expenses_to_json (expenses st))) ls with
    | Some ls' => (st, ls')
    | None => (setError (Some save_error) st, ls)
    end.
Proof.
  intros Hu Hne. unfold commit. rewrite (save_effect_written _ _ _ Hu Hne).
  by destruct (setItem _ _ ls).
Qed.

(** The commit keeps the invariant. *)
Lemma commit_inv Q st ls pend pend' :
  Inv Q {| state := st; storage := ls; pending := pend |} →
  Inv Q {| state := (commit st ls).1; storage := (commit st ls).2;
           pending := pend' |}.
Proof.
  intros [(user & Hne & Hu & Hid) Hbuf HQ Hst]. simpl in *.
  rewrite (commit_spec _ _ _ Hu Hne).
  destruct (setItem _ _ ls) as [ls'|] eqn:Hset; simpl.
  - split; simpl; [|done|done|].
    + exists user. repeat split; [done..|].
      rewrite (getItem_setItem_ne _ _ _ _ _ (storageKey_ne_userId_key user) Hset).
      done.
    + intros user' text Hu' Hget. simplify_eq.
      rewrite (getItem_setItem _ _ _ _ Hset) in Hget. simplify_eq. eauto.
  - split; simpl; [eauto|done|done|done].
Qed.

(** ** Loading the page *)

Lemma identity_effect_spec Q uuid ls updates ls1 :
  store_inv Q ls → identity_effect uuid ls = Some (updates, ls1) →
  ∃ user, user ≠ "" ∧ updates = [SetUserId user] ∧
          getItem userId_key ls1 = Some user ∧
          ∀ text, getItem (storageKey user) ls1 = Some text →
                  ∃ c, text = JSON_stringify (expenses_to_json c) ∧ Q c.
Proof.
  unfold identity_effect. intros [Hempty|(user & Hne & Hid & Hst)].
  - unfold getItem at 1. rewrite Hempty, lookup_empty.
    destruct (setItem _ _ ls) as [ls'|] eqn:Hset; [|done]. simpl.
    intros [= <- <-]. exists ("user_" +:+ uuid). repeat split; [done|..].
    + by apply getItem_setItem in Hset.
    + intros text.
      rewrite (getItem_setItem_ne _ (storageKey _) _ _ _ (not_eq_sym (storageKey_ne_userId_key _)) Hset).
      unfold getItem. by rewrite Hempty, lookup_empty.
  - rewrite Hid. apply truthy_nonempty in Hne as Ht. rewrite Ht.
    intros [= <- <-]. exists user. by repeat split.
Qed.

(** Loading the page on a store the application wrote gives a world
    with the invariant. *)
Lemma mount_inv Q uuid ls w :
  Q [] → store_inv Q ls → mount uuid ls = Some w → Inv Q w.
Proof.
  intros Hnil Hstore. unfold mount.
  destruct (identity_effect uuid ls) as [[updates1 ls1]|] eqn:Hid; [|done].
  destruct (identity_effect_spec _ _ _ _ _ Hstore Hid)
    as (user & Hne & -> & Hu1 & Hst1).
  simpl. set (st1 := setUserId (Some user) initial_state).
  assert (userId st1 = Some user) as Hst1u by done.
  rewrite (save_effect_written st1 ls1 user Hst1u Hne).
  set (loaded := load_effect st1 ls1).
  assert (loaded = [] ∨ ∃ c, loaded = [SetExpenses c] ∧ Q c) as Hloaded.
  { subst loaded. unfold load_effect. rewrite Hst1u.
    apply truthy_nonempty in Hne as ->.
    destruct (getItem (storageKey user) ls1) as [text|] eqn:Hget; [|by left].
    destruct (Hst1 _ eq_refl) as (c & -> & Hc).
    change (truthy (Some ?s)) with (truthy s).
    rewrite stored_text_truthy, stored_text_round_trip. right. eauto. }
  assert (∀ l upd ls2,
            Q l →
            (upd = [] ∨ upd = [SetError save_error]) →
            getItem userId_key ls2 = Some user →
            (∀ text, getItem (storageKey user) ls2 = Some text →
                     ∃ c, text = JSON_stringify (expenses_to_json c) ∧ Q c) →
            Inv Q {| state := apply_updates upd (setExpenses l st1);
                     storage := ls2; pending := [] |}) as Hinv.
  { intros l upd ls2 Hl Hupd Hu2 Hst2.
    split.
    - exists user. by destruct Hupd as [-> | ->].
    - by destruct Hupd as [-> | ->].
    - by destruct Hupd as [-> | ->].
    - intros user' text Hu' Hget.
      assert (user' = user) as -> by (destruct Hupd as [-> | ->]; simpl in Hu'; congruence).
      eauto. }
  destruct (setItem (storageKey user) _ ls1) as [ls2|] eqn:Hset.
  - assert (getItem userId_key ls2 = Some user) as Hu2.
    { by rewrite (getItem_setItem_ne _ _ _ _ _ (storageKey_ne_userId_key user) Hset). }
    assert (∀ text, getItem (storageKey user) ls2 = Some text →
                    ∃ c, text = JSON_stringify (expenses_to_json c) ∧ Q c)
      as Hst2.
    { intros text. rewrite (getItem_setItem _ _ _ _ Hset). intros [= <-].
      exists []. eauto. }
    destruct Hloaded as [-> | (c & -> & Hc)].
    + intros [= <-]. apply (Hinv [] []); auto.
    + simpl app.
      destruct (commit _ ls2) as [st3 ls3] eqn:Hcommit. intros [= <-].
      pose proof (commit_inv Q (apply_updates [SetExpenses c] st1) ls2 [] []
                    (Hinv c [] ls2 Hc (or_introl eq_refl) Hu2 Hst2)) as H.
      by rewrite Hcommit in H.
  - destruct Hloaded as [-> | (c & -> & Hc)].
    + intros [= <-]. apply (Hinv [] [SetError save_error]); auto.
    + destruct (commit _ ls1) as [st3 ls3] eqn:Hcommit. intros [= <-].
      pose proof (commit_inv Q
                    (apply_updates ([SetExpenses c] ++ [SetError save_error]) st1)
                    ls1 [] []
                    (Hinv c [SetError save_error] ls1 Hc (or_intror eq_refl)
                       Hu1 Hst1)) as H.
      by rewrite Hcommit in H.
Qed.

Lemma Inv_store_inv Q w : Inv Q w → store_inv Q (storage w).
Proof.
  intros [(user & Hne & Hu & Hid) _ _ Hst]. right. exists user.
  repeat split; [done..|]. intros text. by apply Hst.
Qed.

Lemma empty_store_inv Q quota : store_inv Q (empty_storage quota).
Proof. by left. Qed.

(** An event keeps the invariant when the collection its handler leaves
    satisfies [Q]. *)
Lemma dispatch_inv Q ev w :
  Inv Q w → Q (expenses (handle ev (state w))) → Inv Q (dispatch ev w).
Proof.
  intros HI HQ. destruct w as [st ls pend]. simpl in *.
  assert (Inv Q {| state := handle ev st; storage := ls; pending := pend |})
    as HI'.
  { destruct HI as [(user & Hne & Hu & Hid) Hbuf _ Hst]. simpl in *.
    split; simpl.
    - exists user. by rewrite handle_userId.
    - by apply handle_buffer.
    - done.
    - intros user' text. rewrite handle_userId. apply Hst. }
  unfold dispatch. simpl.
  destruct (sets_expenses ev).
  - pose proof (commit_inv Q _ _ pend
                  match ev with
                  | FileSelected (Some file) => file :: pend
                  | IngestionSettled _ file _ => remove_one file pend
                  | _ => pend
                  end HI') as H.
    by destruct (commit (handle ev st) ls).
  - destruct HI' as [? ? ? ?]. by split.
Qed.

(** The invariant holds in every world the application gets into, for a
    property [Q] of collections that the handlers keep. *)
Lemma reachable_inv (ok : Event → World → Prop) (Q : list Expense → Prop) :
  Q [] →
  (∀ ev w, Inv Q w → enabled ev w → ok ev w →
           Q (expenses (handle ev (state w)))) →
  ∀ w, reachable ok w → Inv Q w.
Proof.
  intros Hnil Hstep w Hw. induction Hw as [uuid quota w Hm|uuid w w' _ IH Hm|ev w _ IH Hen Hok].
  - eapply mount_inv; [done|apply empty_store_inv|done].
  - eapply mount_inv; [done|by apply Inv_store_inv|done].
  - apply dispatch_inv; [done|]. by apply Hstep.
Qed.


(** ** Saving, then loading *)

Lemma save_other_identity st ls ls' user user' updates :
  userId st = Some user → user' ≠ user →
  save_effect st ls = (updates, ls') →
  getItem (storageKey user') ls' = getItem (storageKey user') ls.
Proof.
  intros Hu Hne. unfold save_effect. rewrite Hu.
  destruct (truthy user); [|by intros [= _ <-]].
  destruct (setItem _ _ ls) as [ls1|] eqn:Hset; intros [= _ <-]; [|done].
  eapply getItem_setItem_ne; [|done]. by intros ?%storageKey_inj.
Qed.




(** ** Receipt ingestion *)

(** The handler as a whole is its two halves with nothing in between. *)
Lemma handleImageChange_halves api f now st :
  handleImageChange api (Some f) now st
  = handle (IngestionSettled api f now) (handle (FileSelected (Some f)) st).
Proof. reflexivity. Qed.






Lemma started_reachable ok quota :
  mount sample_uuid (empty_storage quota) = Some (started quota) →
  reachable ok (started quota).
Proof. apply reach_first. Qed.

Lemma settled_not_loading api f now w :
  isLoading (state (dispatch (IngestionSettled api f now) w)) = false.
Proof.
  unfold dispatch, commit. simpl.
  destruct (extract api f now); simpl; [done|].
  destruct (save_effect _ _) as [updates ls'] eqn:Hs. simpl.
  unfold save_effect in Hs. simpl in Hs.
  destruct (userId (state w)) as [user|]; [|by simplify_eq].
  destruct (truthy user); [|by simplify_eq].
  destruct (setItem _ _ _); by simplify_eq.
Qed.

Lemma selected_pending f w :
  f ∈ pending (dispatch (FileSelected (Some f)) w).
Proof. simpl. set_solver. Qed.

(** A whole ingestion is a path of the application. *)
Lemma ingestion_reachable (ok : Event → World → Prop) api f now w :
  reachable ok w → isLoading (state w) = false →
  ok (FileSelected (Some f)) w →
  ok (IngestionSettled api f now) (dispatch (FileSelected (Some f)) w) →
  reachable ok (dispatch (FileSelected (Some f)) w) ∧
  reachable ok (dispatch (IngestionSettled api f now)
                  (dispatch (FileSelected (Some f)) w)).
Proof.
  intros Hw Hl Hok1 Hok2.
  assert (reachable ok (dispatch (FileSelected (Some f)) w)) as Hs
    by by apply reach_event.
  split; [done|]. apply reach_event; [done| |done]. apply selected_pending.
Qed.

Lemma roomy_reachable ok : reachable ok (started 5000).
Proof. apply started_reachable. vm_compute. reflexivity. Qed.


Lemma roomy_not_loading : isLoading (state (started 5000)) = false.
Proof. vm_compute. reflexivity. Qed.




(** ** Unique ids *)

Lemma dispatch_expenses ev w :
  expenses (state (dispatch ev w)) = expenses (handle ev (state w)).
Proof.
  unfold dispatch, commit.
  destruct (sets_expenses ev); [|done].
  destruct (save_effect _ _) as [updates ls'] eqn:Hs. simpl.
  unfold save_effect in Hs.
  destruct (userId _) as [user|]; [|by simplify_eq].
  destruct (truthy user); [|by simplify_eq].
  destruct (setItem _ _ _); by simplify_eq.
Qed.

(** The save of the form keeps the ids in place: the buffer has the id
    of the record it replaces. *)
Lemma save_keeps_ids st :
  (∀ buffer, editedExpense st = Some buffer →
             editingId st = Some (id buffer)) →
  id <$> expenses (handleSaveEdit st) = id <$> expenses st.
Proof.
  intros Hbuf. simpl. rewrite <- list_fmap_compose.
  apply list_fmap_ext. intros _ exp _. simpl.
  destruct (editedExpense st) as [buffer|] eqn:Hb; simpl; [|by case_match].
  rewrite (Hbuf _ eq_refl). simpl.
  destruct (Z.eqb_spec (id exp) (id buffer)); congruence.
Qed.

Lemma filter_keeps_unique_ids (P : Expense → Prop) `{∀ x, Decision (P x)}
    (l : list Expense) :
  NoDup (id <$> l) → NoDup (id <$> filter P l).
Proof.
  induction l as [|x l IH]; [done|]. rewrite fmap_cons, NoDup_cons.
  intros [Hx Hl]. rewrite filter_cons. case_decide; [|by apply IH].
  rewrite fmap_cons. apply NoDup_cons. split; [|by apply IH].
  intros (y & Hy & Hin)%list_elem_of_fmap. apply Hx.
  apply list_elem_of_fmap. exists y. split; [done|].
  by apply list_elem_of_filter in Hin as [_ ?].
Qed.

Lemma handle_unique_ids ev w :
  Inv unique_ids w → enabled ev w → clock_fresh ev w →
  unique_ids (expenses (handle ev (state w))).
Proof.
  intros [_ Hbuf Huniq _] _ Hfresh. unfold unique_ids in *.
  destruct ev as [[f|]|api f now| |e| | |e []|b]; simpl handle; try done.
  - rewrite settle_expenses.
    destruct (extract api f now) as [stage|r] eqn:Hr; [done|].
    rewrite fmap_cons. apply NoDup_cons. split; [|done].
    by rewrite (extract_id _ _ _ _ Hr).
  - by rewrite save_keeps_ids.
  - simpl. by apply filter_keeps_unique_ids.
  - by rewrite edit_buffer_expenses.
Qed.

Lemma reachable_unique_ids w :
  reachable clock_fresh w → Inv unique_ids w.
Proof.
  apply reachable_inv; [apply NoDup_nil_2|]. apply handle_unique_ids.
Qed.

(** C3, as the code has it: in every state reached through ingestions
    that settle at a clock value which is no [id] of the collection at
    that moment, any two records at different places of the collection
    have different ids; and every event enabled in such a state, an
    ingestion at such a clock value, a save of the edit form or a delete
    among them, leaves a collection with unique ids. *)
Theorem ids_unique_while_clock_fresh (w : World) :
  reachable clock_fresh w →
  (∀ i j a b, i ≠ j → expenses (state w) !! i = Some a →
              expenses (state w) !! j = Some b → id a ≠ id b) ∧
  (∀ ev, enabled ev w → clock_fresh ev w →
         unique_ids (expenses (state (dispatch ev w)))).
Proof.
  intros Hw. pose proof (reachable_unique_ids w Hw) as HI. split.
  - intros i j a b Hij Ha Hb Heq.
    destruct HI as [_ _ Huniq _]. unfold unique_ids in Huniq.
    apply Hij. eapply NoDup_lookup; [exact Huniq| |].
    + rewrite list_lookup_fmap, Ha. reflexivity.
    + rewrite list_lookup_fmap, Hb. simpl. by rewrite Heq.
  - intros ev Hen Hfresh. rewrite dispatch_expenses.
    by apply handle_unique_ids.
Qed.

Lemma ids_unique_while_clock_fresh_witness :
  let w := ingest_cafe sample_time (ingest_sample 5 (started 5000)) in
  (∀ i j a b, i ≠ j → expenses (state w) !! i = Some a →
              expenses (state w) !! j = Some b → id a ≠ id b) ∧
  (∀ ev, enabled ev w → clock_fresh ev w →
         unique_ids (expenses (state (dispatch ev w)))).
Proof.
  apply (ids_unique_while_clock_fresh
           (ingest_cafe sample_time (ingest_sample 5 (started 5000)))).
  apply ingestion_reachable.
  - apply ingestion_reachable;
      [apply roomy_reachable|apply roomy_not_loading|exact I|].
    vm_compute. intros H. by apply elem_of_nil in H.
  - apply settled_not_loading.
  - exact I.
  - vm_compute. intros H.
    apply elem_of_cons in H as [H|H]; [discriminate|by apply elem_of_nil in H].
Defined.

(** C3 as stated fails: two ingestions that settle at one clock value
    leave two different records with one [id], in a state the application
    reaches. *)
Lemma duplicate_ids_reachable :
  let w := ingest_cafe sample_time (ingest_sample sample_time (started 5000)) in
  reachable any_event w ∧
  expenses (state w) = [cafe_record sample_time; sample_record] ∧
  cafe_record sample_time ≠ sample_record ∧
  id (cafe_record sample_time) = id sample_record ∧
  ¬ unique_ids (expenses (state w)).
Proof.
  cbv zeta.
  assert (expenses (state (ingest_cafe sample_time
                             (ingest_sample sample_time (started 5000))))
          = [cafe_record sample_time; sample_record]) as Hexp
    by (vm_compute; reflexivity).
  split.
  { apply ingestion_reachable; [|apply settled_not_loading|done..].
    by apply ingestion_reachable;
      [apply roomy_reachable|apply roomy_not_loading|..]. }
  split; [exact Hexp|]. split; [discriminate|]. split; [reflexivity|].
  rewrite Hexp. unfold unique_ids.
  change (id <$> [cafe_record sample_time; sample_record])
    with [sample_time; sample_time].
  intros H. apply NoDup_cons in H as [H _]. apply H. by constructor.
Qed.

(** ** The aggregate *)

Lemma double_safe (z : Z) : safe_integer z → double z = z.
Proof.
  unfold safe_integer, double. intros Hz.
  destruct (Z.leb_spec (Z.abs z) 9007199254740992); [done|lia].
Qed.

Lemma Number_add_safe (a b : Z) :
  safe_integer (a + b) → Number_add a b = Some (a + b).
Proof.
  intros Hs. unfold Number_add. rewrite (double_safe _ Hs).
  assert (9007199254740992 < 2 ^ 1024) as Hbig by (vm_compute; reflexivity).
  destruct (Z.ltb_spec (Z.abs (a + b)) (2 ^ 1024)); [done|].
  unfold safe_integer in Hs. lia.
Qed.

(** The aggregate reads nothing of a state but the totals of its
    records. *)
Lemma totalExpenses_totals (st : State) :
  totalExpenses st
  = foldl (fun sum t => s ← sum; Number_add s t) (Some 0)
      (totals (expenses st)).
Proof.
  unfold totalExpenses, totals. generalize (Some 0).
  induction (expenses st) as [|e l IH]; intros acc; simpl; [done|].
  apply IH.
Qed.

Lemma fold_left_total (l : list Z) (acc : Z) :
  running_sums_safe acc l →
  foldl (fun sum t => s ← sum; Number_add s t) (Some acc) l
  = Some (acc + foldr Z.add 0 l).
Proof.
  revert acc. induction l as [|t l IH]; intros acc; simpl.
  - intros _. f_equal. lia.
  - intros (_ & Hs & Hl). rewrite (Number_add_safe _ _ Hs), (IH _ Hl).
    f_equal. lia.
Qed.

Lemma totals_set_currency (f : Expense → option string) (l : list Expense) :
  totals ((fun e => set_currency (f e) e) <$> l) = totals l.
Proof. unfold totals. by rewrite <- list_fmap_compose. Qed.

(** C6: the aggregate is the totals of all records, a missing total
    counting 0, added from the left in the arithmetic of doubles.  It is
    their sum in the integers when the totals and the sums on the way are
    safe integers; and it is the same for either sort order and whatever
    the currencies of the records are. *)
Theorem totalExpenses_is_sum (st : State) :
  totalExpenses st
  = foldl (fun sum t => s ← sum; Number_add s t) (Some 0)
      (totals (expenses st)) ∧
  (running_sums_safe 0 (totals (expenses st)) →
   totalExpenses st = Some (foldr Z.add 0 (totals (expenses st)))) ∧
  (∀ order, totalExpenses (setSortOrder order st) = totalExpenses st) ∧
  totalExpenses (toggleSortOrder st) = totalExpenses st ∧
  (∀ f : Expense → option string,
     totalExpenses
       (setExpenses ((fun e => set_currency (f e) e) <$> expenses st) st)
     = totalExpenses st).
Proof.
  split; [apply totalExpenses_totals|]. split; [|split; [done|split; [done|]]].
  - intros Hsafe. rewrite totalExpenses_totals, (fold_left_total _ _ Hsafe).
    f_equal.
  - intros f. rewrite !totalExpenses_totals. simpl expenses.
    by rewrite totals_set_currency.
Qed.

Lemma totalExpenses_is_sum_witness :
  totalExpenses (two_records asc)
  = Some (foldr Z.add 0 (totals (expenses (two_records asc)))) ∧
  totalExpenses (two_records asc) = Some 300.
Proof.
  assert (running_sums_safe 0 (totals (expenses (two_records asc)))) as H
    by (vm_compute; repeat split).
  split; [|vm_compute; reflexivity].
  exact (proj1 (proj2 (totalExpenses_is_sum (two_records asc))) H).
Defined.

(** C6 as stated fails where the doubles end: of the totals 2^53, 1 and 1
    the aggregate is 2^53, each [1] being rounded away, and their sum is
    2^53 + 2; with the large total last the aggregate is the sum. *)
Lemma aggregate_not_exact_sum :
  totalExpenses large_totals = Some 9007199254740992 ∧
  foldr Z.add 0 (totals (expenses large_totals)) = 9007199254740994 ∧
  totalExpenses (setExpenses (reverse (expenses large_totals)) large_totals)
  = Some 9007199254740994 ∧
  ¬ aggregate_is_exact_sum.
Proof.
  split; [vm_compute; reflexivity|]. split; [vm_compute; reflexivity|].
  split; [vm_compute; reflexivity|].
  intros H. specialize (H large_totals). vm_compute in H. discriminate H.
Qed.

(** ** Editing *)

Lemma edit_buffer_all_spec edits st buffer :
  editedExpense st = Some buffer →
  let st1 := edit_buffer_all edits st in
  expenses st1 = expenses st ∧ editingId st1 = editingId st ∧
  ∃ buffer', editedExpense st1 = Some buffer' ∧ id buffer' = id buffer.
Proof.
  unfold edit_buffer_all. revert st buffer.
  induction edits as [|b edits IH]; intros st buffer Hb; simpl; [eauto|].
  destruct (edit_buffer_Some b st buffer Hb) as [buffer1 Hb1].
  destruct (edit_buffer_id b st buffer1 Hb1) as (buffer0 & Hb0 & Hid).
  destruct (IH _ _ Hb1) as (He & Hi & buffer' & Hb' & Hid').
  rewrite He, Hi, edit_buffer_expenses, edit_buffer_editingId.
  repeat split. exists buffer'. split; [done|]. congruence.
Qed.

Lemma save_lookup st buffer target i x :
  editedExpense st = Some buffer → editingId st = Some target →
  expenses st !! i = Some x →
  expenses (handleSaveEdit st) !! i
  = Some (if decide (id x = target) then buffer else x).
Proof.
  intros Hb Ht Hx. simpl. rewrite list_lookup_fmap, Hx, Hb, Ht. simpl.
  destruct (Z.eqb_spec (id x) target); by case_decide.
Qed.

(** C8: after [handleEdit] on a record of the collection and any edits of
    the form, [handleSaveEdit] puts the buffer, which still has the
    record's [id], in the place of every record with that [id] and leaves
    every other record where and as it was; until then the collection is
    as it was.  With unique ids the records replaced are the one record
    edited. *)
Theorem save_edit_replaces_target (st : State) (e : Expense)
    (edits : list BufferEdit) :
  e ∈ expenses st →
  let st1 := edit_buffer_all edits (handleEdit e st) in
  let st2 := handleSaveEdit st1 in
  expenses st1 = expenses st ∧
  ∃ buffer,
    editedExpense st1 = Some buffer ∧ id buffer = id e ∧
    editingId st1 = Some (id e) ∧
    length (expenses st2) = length (expenses st) ∧
    (∀ i x, expenses st !! i = Some x →
            expenses st2 !! i
            = Some (if decide (id x = id e) then buffer else x)) ∧
    (unique_ids (expenses st) →
     ∀ i x, expenses st !! i = Some x →
            expenses st2 !! i = Some (if decide (x = e) then buffer else x)) ∧
    editingId st2 = None ∧ editedExpense st2 = None.
Proof.
  intros He st1 st2.
  assert (editedExpense (handleEdit e st) = Some e) as Hb0
    by (simpl; apply deep_copy_same).
  destruct (edit_buffer_all_spec edits _ _ Hb0) as (Hexp & Hid & buffer & Hb & Hbid).
  fold st1 in Hexp, Hid, Hb. simpl in Hexp, Hid.
  split; [done|]. exists buffer. split; [done|]. split; [done|].
  split; [done|].
  assert (∀ i x, expenses st !! i = Some x →
                 expenses st2 !! i
                 = Some (if decide (id x = id e) then buffer else x)) as Hlook.
  { intros i x Hx. apply save_lookup; [done..|]. by rewrite Hexp. }
  split; [|split; [exact Hlook|split; [|done]]].
  - subst st2. simpl. by rewrite length_map, Hexp.
  - intros Huniq i x Hx. rewrite (Hlook i x Hx).
    apply list_elem_of_lookup in He as [j He].
    destruct (decide (x = e)) as [->|Hne]; [by rewrite decide_True|].
    rewrite decide_False; [done|]. intros Heq. apply Hne.
    assert (i = j) as ->; [|congruence].
    eapply NoDup_lookup; [exact Huniq| |];
      rewrite list_lookup_fmap; [by rewrite Hx|by rewrite He, Heq].
Qed.

Lemma save_edit_replaces_target_witness :
  let st := two_records desc in
  let edits := [FieldChanged f_merchant "Records office";
                ItemChanged 0 f_price "12"; ItemAdded; ItemRemoved 1] in
  let st1 := edit_buffer_all edits (handleEdit old_record st) in
  let st2 := handleSaveEdit st1 in
  expenses st1 = expenses st ∧
  ∃ buffer,
    editedExpense st1 = Some buffer ∧ id buffer = id old_record ∧
    editingId st1 = Some (id old_record) ∧
    length (expenses st2) = length (expenses st) ∧
    (∀ i x, expenses st !! i = Some x →
            expenses st2 !! i
            = Some (if decide (id x = id old_record) then buffer else x)) ∧
    (unique_ids (expenses st) →
     ∀ i x, expenses st !! i = Some x →
            expenses st2 !! i
            = Some (if decide (x = old_record) then buffer else x)) ∧
    editingId st2 = None ∧ editedExpense st2 = None.
Proof.
  apply (save_edit_replaces_target (two_records desc) old_record).
  simpl. apply list_elem_of_further, list_elem_of_here.
Defined.

(** ** Sorting *)

Section sorting.
Context {A : Type} (comparefn : A → A → option Z).

Lemma sort_insert_perm x l : Permutation (x :: l) (sort_insert comparefn x l).
Proof.
  induction l as [|y l IH]; simpl; [done|].
  case_match; [done|]. rewrite <- IH. apply perm_swap.
Qed.

Lemma Array_sort_perm l : Permutation l (Array_sort comparefn l).
Proof.
  induction l as [|x l IH]; simpl; [done|].
  rewrite <- sort_insert_perm. by constructor.
Qed.
End sorting.

Lemma getTime_sort_key e : is_Some (getTime e) → getTime e = Some (sort_key e).
Proof. intros [t Ht]. unfold sort_key. by rewrite Ht. Qed.

Lemma SortCompare_valid order a b :
  is_Some (getTime a) → is_Some (getTime b) →
  SortCompare (compareFn order) a b =
    match order with
    | desc => sort_key b - sort_key a
    | asc => sort_key a - sort_key b
    end.
Proof.
  intros Ha%getTime_sort_key Hb%getTime_sort_key.
  unfold SortCompare, compareFn. rewrite Ha, Hb. by destruct order.
Qed.

Lemma compare_in_order order a b :
  is_Some (getTime a) → is_Some (getTime b) →
  SortCompare (compareFn order) a b ≤ 0 ↔ in_order order a b.
Proof.
  intros Ha Hb. rewrite SortCompare_valid by done.
  destruct order; simpl; lia.
Qed.

Lemma in_order_trans order a b c :
  in_order order a b → in_order order b c → in_order order a c.
Proof. destruct order; simpl; lia. Qed.

Lemma in_order_total order a b : in_order order a b ∨ in_order order b a.
Proof. destruct order; simpl; lia. Qed.

Lemma dates_valid_perm l l' : Permutation l l' → dates_valid l → dates_valid l'.
Proof. intros Hp. unfold dates_valid. by rewrite Hp. Qed.

Lemma sort_insert_sorted order x l :
  dates_valid (x :: l) →
  StronglySorted (in_order order) l →
  StronglySorted (in_order order) (sort_insert (compareFn order) x l).
Proof.
  intros Hv Hs. induction Hs as [|y l Hs IH Hy]; simpl.
  - by repeat constructor.
  - apply Forall_cons in Hv as [Hx Hv].
    pose proof Hv as [Hyv Hlv]%Forall_cons.
    destruct (Z.leb_spec (SortCompare (compareFn order) x y) 0) as [Hle|Hgt].
    + apply compare_in_order in Hle; [|done..].
      constructor; [by constructor|]. constructor; [done|].
      eapply Forall_impl; [exact Hy|]. intros z Hz. simpl in Hz.
      by eapply in_order_trans.
    + constructor.
      * apply IH. by constructor.
      * rewrite <- sort_insert_perm. constructor; [|done].
        destruct (in_order_total order x y) as [Hxy|Hyx]; [|done].
        apply compare_in_order in Hxy; [lia|done..].
Qed.

Lemma Array_sort_sorted order l :
  dates_valid l →
  StronglySorted (in_order order) (Array_sort (compareFn order) l).
Proof.
  induction l as [|x l IH]; intros Hv; simpl; [constructor|].
  pose proof Hv as [Hx Hl]%Forall_cons.
  apply sort_insert_sorted; [|by apply IH].
  constructor; [done|].
  by apply (dates_valid_perm l), Hl; apply Array_sort_perm.
Qed.

(** Sorting leaves a sorted list as it is. *)
Lemma Array_sort_fixed order l :
  dates_valid l → StronglySorted (in_order order) l →
  Array_sort (compareFn order) l = l.
Proof.
  intros Hv Hs. induction Hs as [|x l Hs IH Hx]; simpl; [done|].
  apply Forall_cons in Hv as [Hxv Hv]. rewrite IH by done.
  destruct Hs as [|y l Hs Hy]; simpl; [done|].
  apply Forall_cons in Hx as [Hxy _]. apply Forall_cons in Hv as [Hyv _].
  apply compare_in_order in Hxy; [|done..].
  by destruct (Z.leb_spec (SortCompare (compareFn order) x y) 0); [|lia].
Qed.

Lemma Array_sort_idempotent order l :
  dates_valid l →
  Array_sort (compareFn order) (Array_sort (compareFn order) l)
  = Array_sort (compareFn order) l.
Proof.
  intros Hv. apply Array_sort_fixed; [|by apply Array_sort_sorted].
  by apply (dates_valid_perm l); [apply Array_sort_perm|].
Qed.

(** The sort is stable: the records of one time are in the display copy
    in the order they have in the collection.  With the order by time this
    fixes the display copy, whichever stable sort the engine runs. *)
Lemma sort_insert_stable order x l (k : Z) :
  dates_valid (x :: l) →
  filter (fun e => sort_key e = k) (sort_insert (compareFn order) x l)
  = filter (fun e => sort_key e = k) (x :: l).
Proof.
  induction l as [|y l IH]; intros Hv; simpl; [done|].
  pose proof Hv as [Hx [Hy Hl]%Forall_cons]%Forall_cons.
  destruct (Z.leb_spec (SortCompare (compareFn order) x y) 0) as [Hle|Hgt];
    [done|].
  rewrite SortCompare_valid in Hgt by done.
  rewrite (filter_cons _ y), IH by by constructor.
  rewrite !(filter_cons _ x), (filter_cons _ y).
  repeat case_decide; try done. destruct order; lia.
Qed.

Lemma Array_sort_stable order l (k : Z) :
  dates_valid l →
  filter (fun e => sort_key e = k) (Array_sort (compareFn order) l)
  = filter (fun e => sort_key e = k) l.
Proof.
  induction l as [|x l IH]; intros Hv; simpl; [done|].
  pose proof Hv as [Hx Hl]%Forall_cons.
  rewrite sort_insert_stable.
  - rewrite !(filter_cons _ x), IH by done. done.
  - constructor; [done|].
    by apply (dates_valid_perm l); [apply Array_sort_perm|].
Qed.

(** The display copy is a new array: the one it is taken from stays. *)
Lemma render_sortedExpenses_spec order (r : nat) (h : Heap) l :
  h !! r = Some l →
  ∃ copy h', render_sortedExpenses order r h = Some (copy, h') ∧
             copy ≠ r ∧ h !! copy = None ∧
             h' = <[copy := Array_sort (compareFn order) l]> h.
Proof.
  intros Hr. unfold render_sortedExpenses, spread, sort_in_place.
  rewrite Hr. simpl. rewrite lookup_insert_eq. simpl.
  pose proof (is_fresh (dom h)) as Hfresh.
  rewrite not_elem_of_dom in Hfresh.
  eexists _, _. split; [reflexivity|]. split; [congruence|]. split; [done|].
  apply insert_insert_eq.
Qed.

(** C5, as the code has it: for a collection whose dates are calendar
    dates and either sort order, the display copy holds the records of the
    collection ordered by the time of their date, ascending or descending,
    where a record with no date has the time 0 of the epoch; sorting it
    again gives the same sequence; and the copy is a new array, so the
    array of the collection holds what it held, in the order it had. *)
Theorem display_copy_sorted (st : State) (h : Heap) (r : nat) :
  dates_valid (expenses st) → h !! r = Some (expenses st) →
  (∀ e, truthy (date e) = false → sort_key e = 0) ∧
  Permutation (expenses st) (sortedExpenses st) ∧
  StronglySorted (in_order (sortOrder st)) (sortedExpenses st) ∧
  Array_sort (compareFn (sortOrder st)) (sortedExpenses st)
  = sortedExpenses st ∧
  ∃ copy h',
    render_sortedExpenses (sortOrder st) r h = Some (copy, h') ∧
    h' !! copy = Some (sortedExpenses st) ∧
    copy ≠ r ∧ h' !! r = Some (expenses st) ∧
    ∀ a, a ≠ copy → h' !! a = h !! a.
Proof.
  intros Hv Hr. split.
  { intros e He. unfold sort_key, getTime.
    destruct (date e) as [d|]; [|done]. simpl in He.
    change (truthy (Some d)) with (truthy d) in He. by rewrite He. }
  split; [apply Array_sort_perm|].
  split; [by apply Array_sort_sorted|].
  split; [by apply Array_sort_idempotent|].
  destruct (render_sortedExpenses_spec (sortOrder st) r h _ Hr)
    as (copy & h' & Hrender & Hne & Hnone & ->).
  eexists copy, _. split; [exact Hrender|].
  split; [apply lookup_insert_eq|]. split; [done|].
  split; [by rewrite lookup_insert_ne|].
  intros a Ha. by rewrite lookup_insert_ne.
Qed.

Lemma two_records_valid order : dates_valid (expenses (two_records order)).
Proof. repeat constructor; vm_compute; eauto. Qed.

Lemma display_copy_sorted_witness :
  StronglySorted (in_order asc) (sortedExpenses (two_records asc)) ∧
  Array_sort (compareFn asc) (sortedExpenses (two_records asc))
  = sortedExpenses (two_records asc) ∧
  ∃ copy h',
    render_sortedExpenses asc 0
      ({[0%nat := [undated_record; old_record]]} : Heap) = Some (copy, h') ∧
    h' !! copy = Some (sortedExpenses (two_records asc)) ∧
    h' !! 0%nat = Some [undated_record; old_record].
Proof.
  destruct (display_copy_sorted (two_records asc)
              ({[0%nat := [undated_record; old_record]]} : Heap) 0
              (two_records_valid asc) (lookup_singleton_eq _ _))
    as (_ & _ & Hsorted & Hidem & copy & h' & Hrender & Hcopy & _ & Hr & _).
  split; [exact Hsorted|]. split; [exact Hidem|].
  exists copy, h'. split; [exact Hrender|]. split; [exact Hcopy|exact Hr].
Defined.

(** C5 as stated fails on the missing date: it is the time 0 of the
    epoch, not the earliest time.  A record dated 1969-12-31 has a
    negative time, so in ascending order it comes before a record with no
    date, and in descending order after it. *)
Lemma missing_date_not_earliest :
  date undated_record = None ∧
  getTime old_record = Some (-86400000) ∧
  getTime undated_record = Some 0 ∧
  sortedExpenses (two_records asc) = [old_record; undated_record] ∧
  sortedExpenses (two_records desc) = [undated_record; old_record] ∧
  ¬ missing_date_earliest.
Proof.
  split; [reflexivity|]. split; [vm_compute; reflexivity|].
  split; [reflexivity|]. split; [vm_compute; reflexivity|].
  split; [vm_compute; reflexivity|].
  intros H.
  specialize (H (two_records asc) undated_record old_record 1%nat 0%nat
                eq_refl (two_records_valid asc) eq_refl eq_refl).
  assert (sortedExpenses (two_records asc) = [old_record; undated_record])
    as Hs by (vm_compute; reflexivity).
  rewrite Hs in H. specialize (H eq_refl eq_refl). lia.
Qed.

(** * Further properties of the handlers and the effects *)

(** ** The identity (lines 20-27) and the load of the page *)

Lemma identity_effect_updates uuid ls updates ls1 :
  identity_effect uuid ls = Some (updates, ls1) →
  ∃ user, updates = [SetUserId user] ∧ user ≠ "" ∧
          getItem userId_key ls1 = Some user ∧
          (ls1 = ls ∧ getItem userId_key ls = Some user ∨
           user = "user_" +:+ uuid ∧ setItem userId_key user ls = Some ls1).
Proof.
  unfold identity_effect.
  destruct (getItem userId_key ls) as [current|] eqn:Hget.
  - destruct (truthy current) eqn:Ht.
    + intros [= <- <-]. exists current. apply truthy_nonempty in Ht. eauto 10.
    + destruct (setItem _ _ ls) as [ls'|] eqn:Hset; [|done]. simpl.
      intros [= <- <-]. eexists. split; [done|]. split; [done|].
      split; [by apply getItem_setItem in Hset|]. by right.
  - destruct (setItem _ _ ls) as [ls'|] eqn:Hset; [|done]. simpl.
    intros [= <- <-]. eexists. split; [done|]. split; [done|].
    split; [by apply getItem_setItem in Hset|]. by right.
Qed.

(** X1: the identity effect settles on one identity.  Once it has run on
    a store, a later run on the store it left sets the same user, whatever
    UUID the browser would hand out then, and writes nothing. *)
Theorem identity_effect_again (uuid uuid' : string) (ls ls1 : LocalStorage)
    (updates : list Update) :
  identity_effect uuid ls = Some (updates, ls1) →
  identity_effect uuid' ls1 = Some (updates, ls1).
Proof.
  intros (user & -> & Hne & Hget & _)%identity_effect_updates.
  unfold identity_effect. rewrite Hget.
  apply truthy_nonempty in Hne. by rewrite Hne.
Qed.

Lemma identity_effect_again_witness :
  identity_effect sample_uuid (empty_storage 100)
  = Some (first_identity.1, first_identity.2) ∧
  first_identity.1 = [SetUserId sample_user] ∧
  identity_effect "another-uuid" first_identity.2
  = Some (first_identity.1, first_identity.2).
Proof.
  assert (identity_effect sample_uuid (empty_storage 100)
          = Some (first_identity.1, first_identity.2)) as H
    by (vm_compute; reflexivity).
  split; [exact H|]. split; [vm_compute; reflexivity|].
  exact (identity_effect_again sample_uuid "another-uuid" _ _ _ H).
Defined.

(** The cells the effects of the load never set. *)
Lemma mount_session uuid ls w :
  mount uuid ls = Some w →
  image (state w) = None ∧ isLoading (state w) = false ∧
  sortOrder (state w) = desc ∧ editingId (state w) = None ∧
  editedExpense (state w) = None ∧ pending w = [].
Proof.
  unfold mount.
  destruct (identity_effect uuid ls) as [[updates1 ls1]|] eqn:Hid; [|done].
  apply identity_effect_updates in Hid as (user & -> & Hne & _).
  simpl. unfold load_effect, save_effect, commit, save_effect. simpl.
  apply truthy_nonempty in Hne. rewrite Hne.
  destruct (getItem (storageKey user) ls1) as [text|]; simpl.
  - destruct (truthy text).
    + destruct (JSON_parse text ≫= expenses_of_json) as [c|]; simpl;
        destruct (setItem _ _ ls1) as [ls2|]; simpl; rewrite ?Hne;
        try (by intros [= <-]);
        destruct (setItem _ _ _); simpl; by intros [= <-].
    + destruct (setItem _ _ ls1); simpl; by intros [= <-].
  - destruct (setItem _ _ ls1); simpl; by intros [= <-].
Qed.

(** A reload of the page in a world the application is in. *)
Lemma reload_spec ok uuid w :
  reachable ok w →
  ∃ w', mount uuid (storage w) = Some w' ∧
        userId (state w') = userId (state w) ∧
        getItem userId_key (storage w') = getItem userId_key (storage w) ∧
        expenses (state w') = default [] (persisted w) ∧
        (error (state w') = None ∨ error (state w') = Some save_error).
Proof.
  intros Hw.
  destruct (reachable_inv ok (fun _ => True) I (fun _ _ _ _ _ => I) w Hw)
    as [(user & Hne & Hu & Hid) _ _ Hst].
  unfold mount, identity_effect. rewrite Hid.
  apply truthy_nonempty in Hne as Ht. rewrite Ht. simpl.
  set (st1 := setUserId (Some user) initial_state).
  rewrite (save_effect_written st1 _ user eq_refl Hne).
  unfold persisted. rewrite Hu. simpl.
  destruct (getItem (storageKey user) (storage w)) as [text|] eqn:Hget; simpl.
  - destruct (Hst user text Hu Hget) as (c & -> & _).
    rewrite (load_effect_stored st1 _ user c eq_refl Hne Hget).
    rewrite stored_text_round_trip. simpl.
    destruct (setItem _ _ (storage w)) as [ls2|] eqn:Hset; simpl.
    + rewrite (commit_spec _ _ user); [|done..].
      destruct (setItem _ _ ls2) as [ls3|] eqn:Hset3; eexists;
        (split; [reflexivity|]); simpl; rewrite ?Hu, ?Hid;
        repeat split; auto.
      * rewrite (getItem_setItem_ne _ _ _ _ _ (storageKey_ne_userId_key user) Hset3).
        by rewrite (getItem_setItem_ne _ _ _ _ _ (storageKey_ne_userId_key user) Hset).
      * by rewrite (getItem_setItem_ne _ _ _ _ _ (storageKey_ne_userId_key user) Hset).
    + rewrite (commit_spec _ _ user); [|done..]. simpl.
      destruct (setItem _ (JSON_stringify (expenses_to_json c)) (storage w))
        as [ls3|] eqn:Hset3; eexists;
        (split; [reflexivity|]); simpl; rewrite ?Hu, ?Hid;
        repeat split; auto.
      by rewrite (getItem_setItem_ne _ _ _ _ _ (storageKey_ne_userId_key user) Hset3).
  - assert (load_effect st1 (storage w) = []) as ->.
    { unfold load_effect. simpl. by rewrite Ht, Hget. }
    destruct (setItem _ _ (storage w)) as [ls2|] eqn:Hset; eexists;
      (split; [reflexivity|]); simpl; rewrite ?Hu, ?Hid; repeat split; auto.
    by rewrite (getItem_setItem_ne _ _ _ _ _ (storageKey_ne_userId_key user) Hset).
Qed.

(** X2: a reload never fails and keeps the identity.  From every world
    the application gets into, loading the page again on its store
    succeeds, whatever UUID the browser would hand out, and the component
    has the user it had, which is still the one the store holds. *)
Theorem reload_keeps_identity (ok : Event → World → Prop) (uuid : string)
    (w : World) :
  reachable ok w →
  ∃ w', mount uuid (storage w) = Some w' ∧
        userId (state w') = userId (state w) ∧
        getItem userId_key (storage w') = userId (state w').
Proof.
  intros Hw. destruct (reload_spec ok uuid w Hw) as (w' & Hm & Hu & Hk & _).
  exists w'. split; [done|]. split; [done|].
  destruct (reachable_inv ok (fun _ => True) I (fun _ _ _ _ _ => I) w Hw)
    as [(user & _ & Hu0 & Hid) _ _ _].
  congruence.
Qed.

Lemma reload_keeps_identity_witness :
  ∃ w', mount "another-uuid" (storage (started 5000)) = Some w' ∧
        userId (state w') = userId (state (started 5000)) ∧
        getItem userId_key (storage w') = userId (state w').
Proof.
  exact (reload_keeps_identity any_event "another-uuid" (started 5000)
           (roomy_reachable any_event)).
Defined.

(** X3: a reload shows what the store holds.  After a reload from a world
    the application gets into, the collection is the one the store held
    for the user, or empty when it held none; the text the application
    wrote is always read back, so the error of the load effect never
    shows. *)
Theorem reload_shows_store (ok : Event → World → Prop) (uuid : string)
    (w w' : World) :
  reachable ok w → mount uuid (storage w) = Some w' →
  expenses (state w') = default [] (persisted w) ∧
  error (state w') ≠ Some load_error.
Proof.
  intros Hw Hm.
  destruct (reload_spec ok uuid w Hw) as (w1 & Hm1 & _ & _ & He & Herr).
  assert (w1 = w') as -> by congruence.
  split; [done|]. by destruct Herr as [-> | ->].
Qed.

Lemma reload_shows_store_witness :
  expenses (state reloaded) = default [] (persisted one_receipt) ∧
  error (state reloaded) ≠ Some load_error.
Proof.
  apply (reload_shows_store any_event "another-uuid" one_receipt reloaded).
  - apply ingestion_reachable;
      [apply roomy_reachable|apply roomy_not_loading|exact I|exact I].
  - vm_compute. reflexivity.
Defined.

(** X4: the first load in a profile with an empty store.  The component
    gets the identity made of the UUID and starts with no record; the
    store holds the identity, and the empty collection when there was room
    for it, the error of the save effect showing otherwise.  The load
    fails, leaving the component without a user, exactly when the store
    does not take the identity. *)
Theorem first_load (uuid : string) (room : nat) :
  let user := "user_" +:+ uuid in
  match mount uuid (empty_storage room) with
  | Some w =>
      is_Some (setItem userId_key user (empty_storage room)) ∧
      userId (state w) = Some user ∧ expenses (state w) = [] ∧
      getItem userId_key (storage w) = Some user ∧
      (persisted w = Some [] ∧ error (state w) = None ∨
       getItem (storageKey user) (storage w) = None ∧
       error (state w) = Some save_error)
  | None => setItem userId_key user (empty_storage room) = None
  end.
Proof.
  intros user. unfold mount, identity_effect.
  unfold getItem at 1. simpl entries. rewrite lookup_empty. fold user.
  destruct (setItem userId_key user (empty_storage room)) as [ls1|] eqn:Hid;
    simpl; [|done].
  set (st1 := setUserId (Some user) initial_state).
  assert (getItem (storageKey user) ls1 = None) as Hnone.
  { rewrite (getItem_setItem_ne _ (storageKey user) _ _ _
               (not_eq_sym (storageKey_ne_userId_key user)) Hid).
    apply lookup_empty. }
  apply getItem_setItem in Hid.
  assert (load_effect st1 ls1 = []) as ->.
  { unfold load_effect. simpl. by rewrite Hnone. }
  rewrite (save_effect_written st1 ls1 user eq_refl) by done.
  destruct (setItem _ _ ls1) as [ls2|] eqn:Hset; simpl.
  - split; [by eexists|]. split; [done|]. split; [done|]. split.
    + by rewrite (getItem_setItem_ne _ _ _ _ _ (storageKey_ne_userId_key user) Hset).
    + left. split; [|done]. unfold persisted. simpl.
      rewrite (getItem_setItem _ _ _ _ Hset). apply stored_text_round_trip.
  - split; [by eexists|]. split; [done|]. split; [done|]. split; [done|].
    right. by split.
Qed.

(** ** The store under the events *)


Lemma one_receipt_reachable ok :
  (∀ ev w, ok ev w) → reachable ok one_receipt.
Proof.
  intros Hok. apply ingestion_reachable;
    [apply roomy_reachable|apply roomy_not_loading|apply Hok|apply Hok].
Qed.


(** X6: what is not a change of the collection leaves the data alone.
    Selecting a file, an ingestion that failed, the sort toggle, opening
    and cancelling the edit form, every change in the form and a declined
    delete keep the collection, the user and the store as they are. *)
Theorem view_events_keep_data (ev : Event) (w : World) :
  sets_expenses ev = false →
  expenses (state (dispatch ev w)) = expenses (state w) ∧
  userId (state (dispatch ev w)) = userId (state w) ∧
  storage (dispatch ev w) = storage w.
Proof.
  intros Hsets. unfold dispatch. rewrite Hsets. simpl.
  rewrite handle_userId, handle_expenses. split; [|done].
  destruct ev as [file|api f now| |e| | |e confirmed|b]; simpl in *; try done.
  - by destruct (extract api f now).
  - by subst.
Qed.

Lemma view_events_keep_data_witness :
  let w' := dispatch (DeleteClicked sample_record false) one_receipt in
  expenses (state w') = expenses (state one_receipt) ∧
  userId (state w') = userId (state one_receipt) ∧
  storage w' = storage one_receipt.
Proof.
  exact (view_events_keep_data (DeleteClicked sample_record false) one_receipt
           eq_refl).
Defined.

(** X7: the application writes under its own two keys only.  An event
    leaves every entry of the store as it is, but for the one under the
    key of the user's expenses; so it keeps the identity, the collections
    of other users, and what other pages of the origin have put there. *)
Theorem events_keep_other_keys (ev : Event) (w : World) (user key : string) :
  userId (state w) = Some user → key ≠ storageKey user →
  getItem key (storage (dispatch ev w)) = getItem key (storage w) ∧
  quota (storage (dispatch ev w)) = quota (storage w).
Proof.
  intros Hu Hkey. unfold dispatch.
  destruct (sets_expenses ev); [|done].
  unfold commit, save_effect. rewrite handle_userId, Hu.
  destruct (truthy user); [|done].
  destruct (setItem _ _ (storage w)) as [ls'|] eqn:Hset; simpl; [|done].
  split.
  - by apply (getItem_setItem_ne _ _ _ _ _ (not_eq_sym Hkey) Hset).
  - by apply setItem_Some in Hset as [_ ?].
Qed.

Lemma one_receipt_user : userId (state one_receipt) = Some sample_user.
Proof. vm_compute. reflexivity. Qed.

Lemma events_keep_other_keys_witness :
  let w' := dispatch (DeleteClicked sample_record true) one_receipt in
  getItem userId_key (storage w') = getItem userId_key (storage one_receipt) ∧
  quota (storage w') = quota (storage one_receipt).
Proof.
  exact (events_keep_other_keys (DeleteClicked sample_record true) one_receipt
           sample_user userId_key one_receipt_user
           (not_eq_sym (storageKey_ne_userId_key sample_user))).
Defined.

(** In [H : setItem _ _ a = Some b], the entry of [b] under a key that is
    not the one written is the entry of [a]. *)
Ltac other_key Hk :=
  repeat match goal with
  | H : setItem _ _ ?a = Some ?b |- context [getItem _ ?b] =>
      rewrite (getItem_setItem_ne _ _ _ _ _ (not_eq_sym Hk) H)
  end.

(** X8: the load of the page writes under its own two keys only.  The
    component has a user after the load, and an entry under a key that is
    neither the key of the identity nor the key of that user's expenses is
    what it was before. *)
Theorem mount_keeps_other_keys (uuid : string) (ls : LocalStorage) (w : World) :
  mount uuid ls = Some w →
  ∃ user, userId (state w) = Some user ∧ user ≠ "" ∧
    ∀ key, key ≠ userId_key → key ≠ storageKey user →
           getItem key (storage w) = getItem key ls.
Proof.
  unfold mount.
  destruct (identity_effect uuid ls) as [[updates1 ls1]|] eqn:Hid; [|done].
  apply identity_effect_updates in Hid as (user & -> & Hne & _ & Hls1).
  assert (∀ key, key ≠ userId_key → getItem key ls1 = getItem key ls) as H1.
  { intros key Hk. destruct Hls1 as [[-> _]|[_ Hset]]; [done|].
    by apply (getItem_setItem_ne _ _ _ _ _ (not_eq_sym Hk) Hset). }
  clear Hls1.
  simpl. unfold load_effect, save_effect, commit, save_effect. simpl.
  apply truthy_nonempty in Hne as Ht. rewrite Ht.
  intros Hm. exists user. revert Hm.
  destruct (getItem (storageKey user) ls1) as [text|]; simpl.
  - destruct (truthy text).
    + destruct (JSON_parse text ≫= expenses_of_json) as [c|]; simpl;
        destruct (setItem _ _ ls1) as [ls2|] eqn:Hset2; simpl; rewrite ?Ht;
        try (intros [= <-]; simpl; (split; [done|]); (split; [done|]);
             intros key Hk1 Hk2; other_key Hk2; by apply H1);
        destruct (setItem _ (JSON_stringify (expenses_to_json c)) _)
          as [ls3|] eqn:Hset3; simpl;
        intros [= <-]; simpl; (split; [done|]); (split; [done|]);
        intros key Hk1 Hk2; other_key Hk2; by apply H1.
    + destruct (setItem _ _ ls1) as [ls2|] eqn:Hset2; simpl;
        intros [= <-]; simpl; (split; [done|]); (split; [done|]);
        intros key Hk1 Hk2; other_key Hk2; by apply H1.
  - destruct (setItem _ _ ls1) as [ls2|] eqn:Hset2; simpl;
      intros [= <-]; simpl; (split; [done|]); (split; [done|]);
      intros key Hk1 Hk2; other_key Hk2; by apply H1.
Qed.

Lemma mount_keeps_other_keys_witness :
  ∃ user, userId (state shared_world) = Some user ∧ user ≠ "" ∧
    ∀ key, key ≠ userId_key → key ≠ storageKey user →
           getItem key (storage shared_world) = getItem key shared_store.
Proof.
  assert (mount sample_uuid shared_store = Some shared_world) as H
    by (vm_compute; reflexivity).
  exact (mount_keeps_other_keys sample_uuid shared_store shared_world H).
Defined.

(** ** Receipt ingestion *)

Lemma split_without sep s : without sep s → split sep s = [s].
Proof.
  unfold without. induction s as [|c r IH]; simpl; [done|].
  intros [Hc Hr]%not_elem_of_cons.
  destruct (Ascii.eqb_spec c sep) as [->|_]; [done|]. by rewrite (IH Hr).
Qed.

Lemma split_at sep header rest :
  without sep header →
  split sep (header +:+ String sep rest) = header :: split sep rest.
Proof.
  unfold without. induction header as [|c r IH]; simpl.
  - intros _. rewrite ?string_app_nil_l. simpl. by rewrite Ascii.eqb_refl.
  - intros [Hc Hr]%not_elem_of_cons. rewrite ?string_app_cons. simpl.
    destruct (Ascii.eqb_spec c sep) as [->|_]; [done|]. by rewrite (IH Hr).
Qed.

(** X9: the payload of a data URL.  When the reader yields a header, a
    comma and a payload, neither of which has a comma in it (as a base64
    payload has none), [fileToGenerativePart] resolves to the payload as
    it is, with the media type of the file. *)
Theorem fileToGenerativePart_payload (file : File) (header payload : string) :
  reader_result file = Some (header +:+ "," +:+ payload) →
  without "," header → without "," payload →
  fileToGenerativePart file
  = inr {| data := Some payload; mimeType := file_type file |}.
Proof.
  intros Hr Hh Hp. unfold fileToGenerativePart. rewrite Hr.
  change ("," +:+ payload) with (String "," payload).
  by rewrite (split_at _ _ _ Hh), (split_without _ _ Hp).
Qed.

Lemma fileToGenerativePart_payload_witness :
  fileToGenerativePart sample_file
  = inr {| data := Some "iVBORw0KGgo="; mimeType := file_type sample_file |}.
Proof.
  apply (fileToGenerativePart_payload sample_file "data:image/png;base64"
           "iVBORw0KGgo=").
  - reflexivity.
  - apply (bool_decide_unpack _). vm_compute. exact I.
  - apply (bool_decide_unpack _). vm_compute. exact I.
Defined.

(** X10: a reader result with no comma in it.  [split(',')[1]] is
    [undefined] then; the promise still resolves, with no payload, so the
    ingestion does not fail in the reading stage and the request goes out
    without image data. *)
Theorem fileToGenerativePart_no_comma (file : File) (result : string) :
  reader_result file = Some result → without "," result →
  fileToGenerativePart file
  = inr {| data := None; mimeType := file_type file |} ∧
  ∀ api now,
    extract api file now =
      (text ← await Requesting
                (generateContent api
                   {| data := None; mimeType := file_type file |});
       parsedData ← await Parsing (parse_response api text);
       mret (make_expense parsedData now)).
Proof.
  intros Hr Hw.
  assert (fileToGenerativePart file
          = inr {| data := None; mimeType := file_type file |}) as H.
  { unfold fileToGenerativePart. rewrite Hr. by rewrite (split_without _ _ Hw). }
  split; [done|]. intros api now. unfold extract. by rewrite H.
Qed.

Lemma fileToGenerativePart_no_comma_witness :
  fileToGenerativePart headless_file
  = inr {| data := None; mimeType := file_type headless_file |} ∧
  ∀ api now,
    extract api headless_file now =
      (text ← await Requesting
                (generateContent api
                   {| data := None; mimeType := file_type headless_file |});
       parsedData ← await Parsing (parse_response api text);
       mret (make_expense parsedData now)).
Proof.
  apply (fileToGenerativePart_no_comma headless_file "iVBORw0KGgo=").
  - reflexivity.
  - apply (bool_decide_unpack _). vm_compute. exact I.
Defined.

Lemma normalize_item_invariants item :
  quantity (normalize_item item) ≠ 0 ∧
  (price (normalize_item item) ≠ 0 → unit_price (normalize_item item) ≠ 0).
Proof.
  destruct item as [d de q u p]. simpl. split.
  - destruct q as [q|]; simpl; [|done].
    unfold truthy, Z_truthy. by destruct (Z.eqb_spec q 0).
  - unfold js_or. destruct u as [u|], p as [p|]; simpl;
      unfold truthy, Z_truthy;
      repeat (match goal with
              | |- context [?x =? 0] => destruct (Z.eqb_spec x 0)
              end; simpl; unfold truthy, Z_truthy); try done.
Qed.

(** X11: what normalisation guarantees.  The record made of an extraction
    response has one item for each item of the response, in its order; no
    item has the quantity [0], and an item with a price other than [0] has
    a unit price other than [0]. *)
Theorem normalized_items_invariants (parsedData : ParsedData) (now : Z) :
  length (items (make_expense parsedData now))
  = length (default [] (p_items parsedData)) ∧
  Forall (fun item => quantity item ≠ 0 ∧ (price item ≠ 0 → unit_price item ≠ 0))
    (items (make_expense parsedData now)).
Proof.
  simpl. split; [apply length_map|].
  induction (default [] (p_items parsedData)) as [|item l IH]; simpl;
    constructor; [apply normalize_item_invariants|done].
Qed.

(** *** One ingestion at a time *)

Lemma commit_cells st ls :
  let st' := (commit st ls).1 in
  expenses st' = expenses st ∧ image st' = image st ∧
  isLoading st' = isLoading st ∧ userId st' = userId st ∧
  sortOrder st' = sortOrder st ∧ editingId st' = editingId st ∧
  editedExpense st' = editedExpense st.
Proof.
  unfold commit, save_effect.
  destruct (userId st) as [user|] eqn:Hu; [|by rewrite ?Hu].
  destruct (truthy user); [|by rewrite ?Hu].
  destruct (setItem _ _ ls); simpl; by rewrite ?Hu.
Qed.

(** The commit after an event sets no cell but the error. *)
Lemma dispatch_cells ev w :
  let st := handle ev (state w) in
  let st' := state (dispatch ev w) in
  expenses st' = expenses st ∧ image st' = image st ∧
  isLoading st' = isLoading st ∧ userId st' = userId st ∧
  sortOrder st' = sortOrder st ∧ editingId st' = editingId st ∧
  editedExpense st' = editedExpense st.
Proof.
  unfold dispatch. destruct (sets_expenses ev); [|done].
  pose proof (commit_cells (handle ev (state w)) (storage w)) as H.
  by destruct (commit (handle ev (state w)) (storage w)).
Qed.

Lemma edit_buffer_isLoading b st : isLoading (edit_buffer b st) = isLoading st.
Proof.
  destruct b; simpl; unfold handleItemChange, handleAddItem, handleRemoveItem;
    try done; by destruct (editedExpense st).
Qed.

Lemma handle_isLoading ev st :
  isLoading (handle ev st) =
    match ev with
    | FileSelected (Some _) => true
    | IngestionSettled _ _ _ => false
    | _ => isLoading st
    end.
Proof.
  destruct ev as [[f|]|api f now| |e| | |e []|b]; simpl; try done.
  apply edit_buffer_isLoading.
Qed.

Lemma dispatch_pending ev w :
  pending (dispatch ev w) =
    match ev with
    | FileSelected (Some file) => file :: pending w
    | IngestionSettled _ file _ => remove_one file (pending w)
    | _ => pending w
    end.
Proof. unfold dispatch. by destruct (if sets_expenses ev then _ else _). Qed.

(** X12: one ingestion at a time.  The file input is disabled while an
    ingestion is under way (line 343), so in every world the application
    gets into either nothing is loading and no ingestion is in flight, or
    the component is loading and exactly one is; a second file cannot be
    selected before the first ingestion has settled. *)
Theorem one_ingestion_in_flight (ok : Event → World → Prop) (w : World) :
  reachable ok w →
  in_flight w ∧
  ∀ file, enabled (FileSelected (Some file)) w → pending w = [].
Proof.
  intros Hw.
  assert (in_flight w) as H.
  { induction Hw as [uuid room w Hm|uuid w w' _ _ Hm|ev w _ IH Hen _].
    - apply mount_session in Hm as (_ & Hl & _ & _ & _ & Hp). by left.
    - apply mount_session in Hm as (_ & Hl & _ & _ & _ & Hp). by left.
    - unfold in_flight.
      destruct (dispatch_cells ev w) as (_ & _ & -> & _).
      rewrite handle_isLoading, dispatch_pending.
      destruct ev as [[f|]|api f now| |e| | |e c|b]; simpl in *; try done.
      + right. split; [done|]. exists f.
        destruct IH as [[_ ->]|[? _]]; [done|congruence].
      + left. split; [done|].
        destruct IH as [[_ Hp]|[_ (g & Hp)]]; rewrite Hp in *.
        * by apply elem_of_nil in Hen.
        * apply list_elem_of_singleton in Hen as ->. cbn [remove_one].
          by rewrite decide_True. }
  split; [done|]. intros file Hen. simpl in Hen.
  destruct H as [[_ Hp]|[Hl _]]; [done|congruence].
Qed.

Lemma one_ingestion_in_flight_witness :
  in_flight (dispatch (FileSelected (Some sample_file)) (started 5000)) ∧
  ∀ file,
    enabled (FileSelected (Some file))
      (dispatch (FileSelected (Some sample_file)) (started 5000)) →
    pending (dispatch (FileSelected (Some sample_file)) (started 5000)) = [].
Proof.
  apply (one_ingestion_in_flight any_event).
  apply reach_event; [apply roomy_reachable|apply roomy_not_loading|exact I].
Defined.

(** ** The aggregate under the events *)

(** X13: an ingestion raises the aggregate by the total of its record.
    When an ingestion has made a record, and the totals and the sums on
    the way are safe integers before it and with the record in front, the
    aggregate after it is the aggregate before plus the total of the
    record, or plus nothing when the response had no total; this holds
    whether or not the store took the write. *)
Theorem total_after_ingestion (api : Extraction) (f : File) (now : Z)
    (r : Expense) (w : World) :
  extract api f now = inr r →
  running_sums_safe 0 (totals (expenses (state w))) →
  running_sums_safe 0 (totals (r :: expenses (state w))) →
  ∃ before,
    totalExpenses (state w) = Some before ∧
    totalExpenses (state (dispatch (IngestionSettled api f now) w))
    = Some (before + default 0 (total r)).
Proof.
  intros Hr Hold Hnew. eexists. split.
  - by rewrite totalExpenses_totals, (fold_left_total _ _ Hold).
  - rewrite totalExpenses_totals, dispatch_expenses, handle_expenses, Hr.
    rewrite (fold_left_total _ _ Hnew). unfold totals. rewrite fmap_cons.
    cbn [foldr]. rewrite or_else_Z_default. f_equal. lia.
Qed.

Lemma total_after_ingestion_witness :
  ∃ before,
    totalExpenses (state (started 110)) = Some before ∧
    totalExpenses
      (state (dispatch (IngestionSettled sample_api sample_file sample_time)
                (started 110)))
    = Some (before + default 0 (total sample_record)).
Proof.
  assert (running_sums_safe 0 (totals (expenses (state (started 110)))))
    as Hold by (vm_compute; repeat split).
  assert (running_sums_safe 0
            (totals (sample_record :: expenses (state (started 110)))))
    as Hnew by (vm_compute; repeat split).
  exact (total_after_ingestion sample_api sample_file sample_time sample_record
           (started 110) eq_refl Hold Hnew).
Defined.

(** ** The list controller *)

Lemma StronglySorted_snoc {A} (R : relation A) (l : list A) x :
  StronglySorted R l → Forall (fun y => R y x) l → StronglySorted R (l ++ [x]).
Proof.
  induction 1 as [|y l Hl IH Hy]; simpl; intros Hx.
  - repeat constructor.
  - apply Forall_cons in Hx as [Hyx Hx]. constructor; [by apply IH|].
    apply Forall_app. split; [done|]. by repeat constructor.
Qed.

Lemma StronglySorted_reverse {A} (R R' : relation A) (l : list A) :
  (∀ a b, R a b → R' b a) →
  StronglySorted R l → StronglySorted R' (reverse l).
Proof.
  intros Hflip. induction 1 as [|x l _ IH Hx]; [constructor|].
  rewrite reverse_cons. apply StronglySorted_snoc; [done|].
  apply Forall_reverse. eapply Forall_impl; [done|]. intros y. apply Hflip.
Qed.

(** Two sorted lists with the same elements are one list, when no two
    elements are in order both ways. *)
Lemma StronglySorted_perm_eq {A} (R : relation A) (l1 l2 : list A) :
  (∀ x1 x2, x1 ∈ l1 → x2 ∈ l2 → R x1 x2 → R x2 x1 → x1 = x2) →
  StronglySorted R l1 → StronglySorted R l2 → l1 ≡ₚ l2 → l1 = l2.
Proof.
  intros Hasym Hl1. revert l2 Hasym.
  induction Hl1 as [|x1 l1 ? IH Hx1]; intros l2 Hasym Hl2 E.
  { symmetry. by apply Permutation_nil. }
  destruct Hl2 as [|x2 l2 ? Hx2].
  { by apply Permutation_nil_r in E. }
  assert (x1 = x2); subst.
  { rewrite Forall_forall in Hx1, Hx2.
    assert (x2 ∈ x1 :: l1) as Hx2' by (rewrite E; left).
    assert (x1 ∈ x2 :: l2) as Hx1' by (rewrite <- E; left).
    apply elem_of_cons in Hx1' as [?|Hx1']; [done|].
    apply elem_of_cons in Hx2' as [?|Hx2']; [done|].
    apply Hasym; [left|left|by apply Hx1|by apply Hx2]. }
  f_equal. apply IH; [|done|by apply (inj (x2 ::.))].
  intros ????. apply Hasym; by right.
Qed.

Lemma fmap_inj_on {A B} (f : A → B) (l : list A) x y :
  NoDup (f <$> l) → x ∈ l → y ∈ l → f x = f y → x = y.
Proof.
  induction l as [|a l IH]; [by intros _ ?%elem_of_nil|].
  rewrite fmap_cons. intros [Ha Hl]%NoDup_cons.
  intros [->|Hx]%elem_of_cons [->|Hy]%elem_of_cons Hf; [done|..|by apply IH].
  - exfalso. apply Ha. rewrite Hf. by apply list_elem_of_fmap_2.
  - exfalso. apply Ha. rewrite <- Hf. by apply list_elem_of_fmap_2.
Qed.

(** X14: the toggle turns the list around.  Toggling twice is toggling
    not at all; and when every date is valid and no two records have one
    time, the display copy after a toggle is the display copy before it,
    read backwards. *)
Theorem toggle_reverses (st : State) :
  dates_valid (expenses st) → NoDup (sort_key <$> expenses st) →
  toggleSortOrder (toggleSortOrder st) = st ∧
  sortedExpenses (toggleSortOrder st) = reverse (sortedExpenses st).
Proof.
  intros Hvalid Hkeys. split.
  { destruct st as [l im lo er us o ed bu]. by destruct o. }
  unfold sortedExpenses, toggleSortOrder. simpl.
  set (o := sortOrder st). set (l := expenses st) in *.
  set (o' := match o with desc => asc | asc => desc end).
  pose proof (Array_sort_perm (compareFn o) l) as Hp.
  pose proof (Array_sort_perm (compareFn o') l) as Hp'.
  apply (StronglySorted_perm_eq (in_order o')).
  - intros x1 x2 H1 H2 H12 H21.
    apply (fmap_inj_on sort_key l); [done|by rewrite Hp'| |].
    + rewrite elem_of_reverse in H2. by rewrite Hp.
    + destruct o; simpl in *; lia.
  - by apply Array_sort_sorted.
  - apply (StronglySorted_reverse (in_order o)); [|by apply Array_sort_sorted].
    by destruct o.
  - by rewrite reverse_Permutation, <- Hp, <- Hp'.
Qed.

Lemma toggle_reverses_witness :
  toggleSortOrder (toggleSortOrder (two_records desc)) = two_records desc ∧
  sortedExpenses (toggleSortOrder (two_records desc))
  = reverse (sortedExpenses (two_records desc)).
Proof.
  apply (toggle_reverses (two_records desc)).
  - apply two_records_valid.
  - apply (bool_decide_unpack _). vm_compute. exact I.
Defined.

(** X15: records of one time keep their order.  When every date is valid,
    the records with a given time are in the display copy in the order
    they have in the collection, under either sort order. *)
Theorem ties_keep_collection_order (st : State) (k : Z) :
  dates_valid (expenses st) →
  filter (fun e => sort_key e = k) (sortedExpenses st)
  = filter (fun e => sort_key e = k) (expenses st).
Proof. intros Hvalid. by apply Array_sort_stable. Qed.

Lemma tied_records_valid : dates_valid (expenses tied_records).
Proof. repeat constructor; by eexists. Qed.

Lemma ties_keep_collection_order_witness :
  filter (fun e => sort_key e = 1709683200000) (sortedExpenses tied_records)
  = filter (fun e => sort_key e = 1709683200000) (expenses tied_records).
Proof.
  exact (ties_keep_collection_order tied_records 1709683200000
           tied_records_valid).
Defined.

(** X16: the display copy has the records of the collection.  Whatever
    the dates are, valid or not, the display copy is a rearrangement of
    the collection: no record is lost or shown twice; and the toggle
    leaves the collection itself in its order. *)
Theorem display_copy_rearranges (st : State) :
  expenses st ≡ₚ sortedExpenses st ∧
  length (sortedExpenses st) = length (expenses st) ∧
  expenses (toggleSortOrder st) = expenses st.
Proof.
  pose proof (Array_sort_perm (compareFn (sortOrder st)) (expenses st)) as H.
  split; [done|]. split; [|done]. symmetry. by apply Permutation_length.
Qed.

(** *** The edit form *)


Lemma edit_buffer_cancel b st :
  handleCancelEdit (edit_buffer b st) = handleCancelEdit st.
Proof.
  destruct b; simpl;
    unfold handleItemChange, handleAddItem, handleRemoveItem,
      handleFieldChange;
    by destruct (editedExpense st).
Qed.

Lemma edit_buffer_all_cancel edits st :
  handleCancelEdit (edit_buffer_all edits st) = handleCancelEdit st.
Proof.
  unfold edit_buffer_all. revert st.
  induction edits as [|b edits IH]; intros st; simpl; [done|].
  by rewrite IH, edit_buffer_cancel.
Qed.

(** X18: cancelling discards the edits.  Opening the form on a record,
    changing the buffer in any way and cancelling leaves the component as
    cancelling alone would: the collection untouched and no edit under
    way; from a component with no edit under way it is the very state the
    component was in. *)
Theorem cancel_discards_edits (e : Expense) (edits : list BufferEdit)
    (st : State) :
  let st' := handleCancelEdit (edit_buffer_all edits (handleEdit e st)) in
  st' = handleCancelEdit st ∧
  expenses st' = expenses st ∧
  editingId st' = None ∧ editedExpense st' = None ∧
  (editingId st = None → editedExpense st = None → st' = st).
Proof.
  cbv zeta. rewrite edit_buffer_all_cancel.
  assert (handleCancelEdit (handleEdit e st) = handleCancelEdit st) as ->
    by done.
  do 4 (split; [done|]). intros Hi Hb. destruct st. simpl in *. by subst.
Qed.

Lemma filter_ids (i : Z) (l : list Expense) :
  id <$> filter (fun exp => id exp ≠ i) l = filter (fun j => j ≠ i) (id <$> l).
Proof.
  induction l as [|x l IH]; [done|].
  rewrite fmap_cons, !filter_cons.
  destruct (decide (id x ≠ i)); by rewrite ?fmap_cons, IH.
Qed.

(** X19: the [id]s of the collection.  In a world the application gets
    into, an event changes the sequence of [id]s in two ways only: an
    ingestion that made a record puts the clock value in front, and a
    confirmed delete takes out the [id] of the record; every other event,
    a saved edit among them, leaves each record its [id] and its place. *)
Theorem ids_follow_events (ok : Event → World → Prop) (ev : Event) (w : World) :
  reachable ok w →
  ids (state (dispatch ev w)) = ids_after ev (ids (state w)).
Proof.
  intros Hw. unfold ids. rewrite dispatch_expenses.
  destruct ev as [file|api f now| |e| | |e [|]|b];
    try (by rewrite handle_expenses).
  - rewrite handle_expenses. simpl.
    destruct (extract api f now) as [stage|r] eqn:Hr; [done|].
    by rewrite fmap_cons, (extract_id _ _ _ _ Hr).
  - apply save_keeps_ids.
    by destruct (reachable_inv ok (fun _ => True) I (fun _ _ _ _ _ => I) w Hw).
  - rewrite handle_expenses. apply filter_ids.
Qed.

Lemma ids_follow_events_witness :
  ids (state (dispatch (DeleteClicked sample_record true) one_receipt))
  = ids_after (DeleteClicked sample_record true) (ids (state one_receipt)).
Proof.
  exact (ids_follow_events any_event (DeleteClicked sample_record true)
           one_receipt (one_receipt_reachable any_event (fun _ _ => I))).
Defined.

Lemma filter_absent_id (i : Z) (l : list Expense) :
  i ∉ id <$> l → filter (fun exp => id exp ≠ i) l = l.
Proof.
  induction l as [|x l IH]; [done|].
  rewrite fmap_cons. intros [Hx Hl]%not_elem_of_cons.
  rewrite filter_cons, decide_True by done. by rewrite IH.
Qed.

(** X20: a confirmed delete takes out the record.  In a collection in
    which no two records have one [id], deleting a record leaves the
    records before it and the records behind it, in their order, and no
    record with its [id]. *)
Theorem delete_removes_the_record (st : State) (l1 l2 : list Expense)
    (e : Expense) :
  expenses st = (l1 ++ e :: l2)%list → unique_ids (expenses st) →
  expenses (handleDelete true (id e) st) = (l1 ++ l2)%list ∧
  (id e ∉ ids (handleDelete true (id e) st)).
Proof.
  intros Hl Hu.
  assert (expenses (handleDelete true (id e) st) = (l1 ++ l2)%list) as H.
  { simpl. rewrite Hl. unfold unique_ids in Hu. rewrite Hl in Hu.
    rewrite fmap_app, fmap_cons in Hu.
    apply NoDup_app in Hu as (_ & H1 & [H2 _]%NoDup_cons).
    rewrite filter_app, filter_cons, decide_False by (intros ?; done).
    rewrite (filter_absent_id _ l2 H2). f_equal.
    apply filter_absent_id. intros Hin. apply (H1 _ Hin). left. }
  split; [done|]. unfold ids. simpl.
  intros (x & Hx & [Hne _]%list_elem_of_filter)%list_elem_of_fmap.
  by apply Hne.
Qed.

Lemma delete_removes_the_record_witness :
  expenses (handleDelete true (id old_record) (two_records desc))
  = ([undated_record] ++ [])%list ∧
  (id old_record ∉ ids (handleDelete true (id old_record) (two_records desc))).
Proof.
  apply (delete_removes_the_record (two_records desc) [undated_record] []
           old_record).
  - reflexivity.
  - apply (bool_decide_unpack _). vm_compute. exact I.
Defined.

(** X21: a delete goes by the [id].  A declined delete changes nothing.
    A confirmed one takes out every record that has the [id], the clicked
    one and any other, and keeps the rest in their order; when no record
    has the [id] the collection is as it was. *)
Theorem delete_by_id (i : Z) (st : State) :
  handleDelete false i st = st ∧
  (let st' := handleDelete true i st in
   (∀ x, x ∈ expenses st' ↔ x ∈ expenses st ∧ id x ≠ i) ∧
   sublist (expenses st') (expenses st) ∧
   (i ∉ ids st') ∧
   (i ∉ ids st → expenses st' = expenses st)).
Proof.
  split; [done|]. simpl. split; [|split; [|split]].
  - intros x. rewrite list_elem_of_filter. tauto.
  - apply sublist_filter.
  - unfold ids. simpl.
    intros (x & Hx & [Hne _]%list_elem_of_filter)%list_elem_of_fmap.
    by apply Hne.
  - apply filter_absent_id.
Qed.




(** *** The editing id and the buffer *)

Lemma edit_buffer_None b st :
  editedExpense st = None → editedExpense (edit_buffer b st) = None.
Proof.
  intros H. destruct (editedExpense (edit_buffer b st)) as [buffer'|] eqn:E;
    [|done].
  apply edit_buffer_id in E as (buffer & E & _). congruence.
Qed.

Lemma handle_editor ev w :
  enabled ev w → editor_consistent (state w) →
  editor_consistent (handle ev (state w)).
Proof.
  destruct w as [st ls pend]. simpl state.
  unfold editor_consistent, ids. intros Hen Hinv.
  destruct ev as [[f|]|api f now| |e| | |e [|]|b]; simpl in Hen |- *;
    try done.
  - destruct (extract api f now) as [stage|r]; simpl; [done|].
    destruct (editingId st), (editedExpense st); try done.
    destruct Hinv as [? ?]. split; [done|]. by right.
  - rewrite deep_copy_same. split; [done|].
    apply list_elem_of_fmap_2. by destruct Hen.
  - destruct Hen as [_ Hne].
    destruct (editingId st) as [i|], (editedExpense st) as [buffer|];
      try done.
    destruct Hinv as [Hid (x & -> & Hx)%list_elem_of_fmap].
    split; [done|]. apply list_elem_of_fmap_2.
    apply list_elem_of_filter. split; [|done]. congruence.
  - rewrite edit_buffer_editingId, edit_buffer_expenses.
    destruct (editingId st) as [i|], (editedExpense st) as [buffer|] eqn:E;
      try done.
    + destruct (edit_buffer_Some b st buffer E) as [buffer' E'].
      rewrite E'. apply edit_buffer_id in E' as (buffer0 & E0 & ->).
      by simplify_eq.
    + by rewrite (edit_buffer_None b st E).
Qed.

(** X23: the editing id and the buffer go together.  In every world the
    application gets into, either no edit is under way and both cells are
    unset, or both are set, the buffer bears the editing id, and a record
    of the collection has that [id]: the record being edited cannot leave
    the collection, so the form is on screen as long as the edit is under
    way. *)
Theorem editor_cells_agree (ok : Event → World → Prop) (w : World) :
  reachable ok w →
  editor_consistent (state w) ∧
  (is_Some (editingId (state w)) → form_shown (state w)).
Proof.
  intros Hw.
  assert (editor_consistent (state w)) as H.
  { induction Hw as [uuid room w Hm|uuid w w' _ _ Hm|ev w _ IH Hen _].
    - apply mount_session in Hm as (_ & _ & _ & Hi & Hb & _).
      unfold editor_consistent. by rewrite Hi, Hb.
    - apply mount_session in Hm as (_ & _ & _ & Hi & Hb & _).
      unfold editor_consistent. by rewrite Hi, Hb.
    - pose proof (handle_editor ev w Hen IH) as H.
      destruct (dispatch_cells ev w) as (He & _ & _ & _ & _ & Hi & Hb).
      unfold editor_consistent, ids in *. by rewrite He, Hi, Hb. }
  split; [done|]. intros [i Hi]. unfold editor_consistent, form_shown in *.
  rewrite Hi in H. destruct (editedExpense (state w)); [|done].
  destruct H as [_ (x & -> & Hx)%list_elem_of_fmap]. eauto.
Qed.

Lemma editor_cells_agree_witness :
  editor_consistent (state (dispatch (EditClicked sample_record) one_receipt)) ∧
  (is_Some (editingId (state (dispatch (EditClicked sample_record) one_receipt)))
   → form_shown (state (dispatch (EditClicked sample_record) one_receipt))).
Proof.
  apply (editor_cells_agree any_event).
  apply reach_event;
    [apply (one_receipt_reachable any_event (fun _ _ => I))| |exact I].
  split.
  - apply (bool_decide_unpack _). vm_compute. exact I.
  - vm_compute. discriminate.
Defined.

(** X24: a reload starts a new session.  After a load of the page,
    whatever the store holds, the sort order is the descending one, no
    edit is under way (a buffer that was not saved is gone), nothing is
    loading and no ingestion is in flight. *)
Theorem reload_starts_session (uuid : string) (ls : LocalStorage) (w : World) :
  mount uuid ls = Some w →
  sortOrder (state w) = desc ∧
  editingId (state w) = None ∧ editedExpense (state w) = None ∧
  isLoading (state w) = false ∧ image (state w) = None ∧ pending w = [].
Proof. intros H. apply mount_session in H. tauto. Qed.

Lemma reload_starts_session_witness :
  sortOrder (state reloaded) = desc ∧
  editingId (state reloaded) = None ∧ editedExpense (state reloaded) = None ∧
  isLoading (state reloaded) = false ∧ image (state reloaded) = None ∧
  pending reloaded = [].
Proof.
  assert (mount "another-uuid" (storage one_receipt) = Some reloaded) as H
    by (vm_compute; reflexivity).
  exact (reload_starts_session "another-uuid" (storage one_receipt) reloaded H).
Defined.

(** *** The changes in the form *)

Lemma edit_buffer_currency b st buffer' :
  editedExpense (edit_buffer b st) = Some buffer' →
  ∃ buffer, editedExpense st = Some buffer ∧
            id buffer' = id buffer ∧ currency buffer' = currency buffer.
Proof.
  destruct b as [name value|index name value| |index]; simpl;
    unfold handleItemChange, handleAddItem, handleRemoveItem;
    destruct (editedExpense st) as [buffer|] eqn:E; simpl; rewrite ?E;
    try done; intros [= <-]; exists buffer; (split; [done|]); try done.
  by destruct name.
Qed.

Lemma edit_buffer_all_currency edits st buffer :
  editedExpense st = Some buffer →
  ∃ buffer', editedExpense (edit_buffer_all edits st) = Some buffer' ∧
             id buffer' = id buffer ∧ currency buffer' = currency buffer.
Proof.
  unfold edit_buffer_all. revert st buffer.
  induction edits as [|b edits IH]; intros st buffer E; simpl; [eauto|].
  destruct (edit_buffer_Some b st buffer E) as [buffer1 E1].
  destruct (edit_buffer_currency _ _ _ E1) as (buffer0 & E0 & Hi & Hc).
  destruct (IH _ _ E1) as (buffer' & E' & Hi' & Hc').
  exists buffer'. split; [done|]. simplify_eq. split; congruence.
Qed.

(** X25: the form cannot change the [id] or the currency.  Whatever is
    changed in the form opened on a record, the buffer is still there and
    has the [id] and the currency of the record, so a saved edit keeps
    both. *)
Theorem form_keeps_id_and_currency (e : Expense) (edits : list BufferEdit)
    (st : State) :
  ∃ buffer,
    editedExpense (edit_buffer_all edits (handleEdit e st)) = Some buffer ∧
    id buffer = id e ∧ currency buffer = currency e.
Proof.
  apply edit_buffer_all_currency. simpl. apply deep_copy_same.
Qed.

(** X26: changes of the fields of the record.  A second change of a
    field replaces the first, and changes of two different fields can be
    made in either order. *)
Theorem field_changes_compose (name name' : ExpenseField)
    (value value' : string) (st : State) :
  handleFieldChange name value' (handleFieldChange name value st)
  = handleFieldChange name value' st ∧
  (name ≠ name' →
   handleFieldChange name value (handleFieldChange name' value' st)
   = handleFieldChange name' value' (handleFieldChange name value st)).
Proof.
  unfold handleFieldChange. destruct st as [l im lo er us o ed [buffer|]];
    simpl; [|done].
  split; [by destruct name|]. by destruct name, name'.
Qed.

(** A change of a row leaves the fields it does not name. *)
Lemma set_item_field_kept (name : ItemField) (value : string)
    (item : LineItem) :
  let row := set_item_field name value item in
  (name ≠ f_description → description row = description item) ∧
  (name ≠ f_description_en → description_en row = description_en item) ∧
  (name ≠ f_quantity → quantity row = quantity item) ∧
  (name ≠ f_unit_price → unit_price row = unit_price item) ∧
  (name ≠ f_price → price row = price item).
Proof. by destruct name. Qed.

(** X28: removing a row.  [handleRemoveItem] takes out the row at
    [index]: the rows before it keep their place, the rows behind it move
    up by one, and there is one row less; with an [index] past the last
    row nothing changes. *)
Theorem remove_item_rows (index : nat) (st : State) (buffer : Expense) :
  editedExpense st = Some buffer →
  ∃ buffer',
    editedExpense (handleRemoveItem index st) = Some buffer' ∧
    buffer' = set_items (items buffer') buffer ∧
    (∀ j, (j < index)%nat → items buffer' !! j = items buffer !! j) ∧
    (∀ j, (index ≤ j)%nat → items buffer' !! j = items buffer !! S j) ∧
    ((index < length (items buffer))%nat →
     S (length (items buffer')) = length (items buffer)) ∧
    ((length (items buffer) ≤ index)%nat → handleRemoveItem index st = st).
Proof.
  intros E. unfold handleRemoveItem. rewrite E. simpl.
  eexists. split; [done|]. simpl. split; [done|].
  split; [|split; [|split]].
  - intros j Hj. by apply list_lookup_delete_lt.
  - intros j Hj. by apply list_lookup_delete_ge.
  - intros Hlt. rewrite length_delete by (by apply lookup_lt_is_Some). lia.
  - intros Hge.
    assert (delete index (items buffer) = items buffer) as ->.
    { apply list_eq. intros j. destruct (decide (j < index)%nat).
      - by apply list_lookup_delete_lt.
      - rewrite list_lookup_delete_ge by lia.
        rewrite !lookup_ge_None_2; [done|lia..]. }
    destruct st, buffer. simpl in *. by subst.
Qed.

Lemma remove_item_rows_witness :
  ∃ buffer',
    editedExpense (handleRemoveItem 0 editing_old_record) = Some buffer' ∧
    buffer' = set_items (items buffer') old_record ∧
    (∀ j, (j < 0)%nat → items buffer' !! j = items old_record !! j) ∧
    (∀ j, (0 ≤ j)%nat → items buffer' !! j = items old_record !! S j) ∧
    ((0 < length (items old_record))%nat →
     S (length (items buffer')) = length (items old_record)) ∧
    ((length (items old_record) ≤ 0)%nat →
     handleRemoveItem 0 editing_old_record = editing_old_record).
Proof.
  assert (editedExpense editing_old_record = Some old_record) as E
    by (vm_compute; reflexivity).
  exact (remove_item_rows 0 editing_old_record old_record E).
Defined.



(** *** Numbers typed into the form *)

Lemma usize_rev_step (d : Decimal.uint) (k : N) (d1 : Decimal.uint) :
  Unsigned.of_lu d1 = k →
  Unsigned.of_lu (Decimal.revapp d d1)
  = (Unsigned.of_lu (Decimal.rev d) + k * 10 ^ Unsigned.usize d)%N.
Proof. intros <-. apply Unsigned.of_lu_revapp. Qed.

(** Reading the digits of [d] on top of [acc]. *)
Lemma read_digits_uint (d : Decimal.uint) (acc : Z) (count : nat) :
  read_digits (NilEmpty.string_of_uint d) acc count
  = (acc * 10 ^ Z.of_N (Unsigned.usize d)
     + Z.of_N (Unsigned.of_lu (Decimal.rev d)),
     (count + N.to_nat (Unsigned.usize d))%nat).
Proof.
  revert acc count.
  induction d as [|d IH|d IH|d IH|d IH|d IH|d IH|d IH|d IH|d IH|d IH];
    intros acc count;
    [simpl; apply (f_equal2 pair); lia|..];
    cbn [NilEmpty.string_of_uint read_digits];
    match goal with
    | |- context [digit_of ?c] =>
        change (digit_of c) with (Some (Z.of_N (N_of_ascii c - 48)))
    end;
    cbn match; rewrite IH; unfold Decimal.rev at 2; cbn [Decimal.revapp];
    cbn [Unsigned.usize];
    (erewrite usize_rev_step; [|reflexivity]);
    rewrite N2Nat.inj_succ, N2Z.inj_add, N2Z.inj_mul, N2Z.inj_pow,
      N2Z.inj_succ, Z.pow_succ_r by lia;
    (apply (f_equal2 pair); [simpl Z.of_N; ring|lia]).
Qed.

Lemma usize_positive (d : Decimal.uint) :
  d ≠ Decimal.Nil → ∃ k, N.to_nat (Unsigned.usize d) = S k.
Proof.
  destruct d; [done|..]; intros _; simpl; rewrite N2Nat.inj_succ; eauto.
Qed.

(** [parseFloat] on the decimal digits of a positive number. *)
Lemma read_digits_pos (p : positive) :
  ∃ k, read_digits (NilZero.string_of_uint (Pos.to_uint p)) 0 0
       = (Z.pos p, S k).
Proof.
  pose proof (Unsigned.to_uint_nonnil p) as Hnn.
  destruct (usize_positive _ Hnn) as [k Hk]. exists k.
  assert (NilZero.string_of_uint (Pos.to_uint p)
          = NilEmpty.string_of_uint (Pos.to_uint p)) as ->
    by (by destruct (Pos.to_uint p)).
  rewrite read_digits_uint, Hk. f_equal.
  rewrite <- Unsigned.of_uint_alt, Unsigned.of_to. simpl. lia.
Qed.

Lemma trim_start_literal (c : ascii) (r : string) :
  is_digit c = true ∨ c = "-"%char →
  trim_start (String c r) = String c r.
Proof.
  intros [H| ->]; [|done].
  destruct c as [[] [] [] [] [] [] [] []]; try done.
Qed.

Lemma parseFloat_digit (c : ascii) (r : string) :
  is_digit c = true →
  parseFloat (String c r) =
    match read_digits (String c r) 0 0 with
    | (_, O) => None
    | (n, _) => Some (double n)
    end.
Proof.
  intros H. unfold parseFloat. rewrite trim_start_literal by (by left).
  destruct c as [[] [] [] [] [] [] [] []]; try done.
Qed.

Lemma number_input_print (n : Z) :
  safe_integer n → number_input (print_number n) = n.
Proof.
  intros Hsafe. unfold number_input, print_number.
  destruct n as [|p|p]; simpl Z.to_int; cbn [NilZero.string_of_int].
  - done.
  - destruct (read_digits_pos p) as [k Hk].
    destruct (NilZero.string_of_uint (Pos.to_uint p)) as [|c r] eqn:E;
      [done|].
    assert (is_digit c = true) as Hc.
    { pose proof (Unsigned.to_uint_nonnil p).
      destruct (Pos.to_uint p); try done; simpl in E; by simplify_eq. }
    rewrite (parseFloat_digit _ _ Hc), Hk, (double_safe _ Hsafe).
    by apply or_else_Z_nonzero.
  - unfold parseFloat. rewrite trim_start_literal by (by right).
    destruct (read_digits_pos p) as [k ->].
    change (- Z.pos p) with (Z.neg p). rewrite (double_safe _ Hsafe).
    by apply or_else_Z_nonzero.
Qed.

(** X27: a change in a row of the form.  A change of a field of the row
    at [index] leaves the other rows, the number of rows, the fields of
    the record and the other four fields of the row as they are.  A text
    field of the row becomes the text typed; a numeric field becomes the
    integer typed, for the decimal text of a safe integer. *)
Theorem item_change_one_row (index : nat) (name : ItemField) (value : string)
    (st : State) (buffer : Expense) (item : LineItem) :
  editedExpense st = Some buffer → items buffer !! index = Some item →
  ∃ buffer' row,
    editedExpense (handleItemChange index name value st) = Some buffer' ∧
    items buffer' !! index = Some row ∧
    (∀ j, j ≠ index → items buffer' !! j = items buffer !! j) ∧
    length (items buffer') = length (items buffer) ∧
    buffer' = set_items (items buffer') buffer ∧
    (name ≠ f_description → description row = description item) ∧
    (name ≠ f_description_en → description_en row = description_en item) ∧
    (name ≠ f_quantity → quantity row = quantity item) ∧
    (name ≠ f_unit_price → unit_price row = unit_price item) ∧
    (name ≠ f_price → price row = price item) ∧
    (name = f_description → description row = value) ∧
    (name = f_description_en → description_en row = value) ∧
    (∀ n, safe_integer n → value = print_number n →
          (name = f_quantity → quantity row = n) ∧
          (name = f_unit_price → unit_price row = n) ∧
          (name = f_price → price row = n)).
Proof.
  intros E Hrow. unfold handleItemChange. rewrite E, Hrow. simpl.
  eexists _, (set_item_field name value item). split; [done|]. simpl.
  apply lookup_lt_Some in Hrow as Hlt.
  split; [by apply list_lookup_insert_eq|].
  split; [intros j Hj; by apply list_lookup_insert_ne|].
  split; [apply length_insert|]. split; [done|].
  destruct (set_item_field_kept name value item) as (H1 & H2 & H3 & H4 & H5).
  do 5 (split; [done|]).
  split; [by intros ->|]. split; [by intros ->|].
  intros n Hn ->. repeat split; intros ->; simpl; by apply number_input_print.
Qed.

Lemma item_change_one_row_witness :
  ∃ buffer' row,
    editedExpense (handleItemChange 0 f_price "12" editing_old_record)
    = Some buffer' ∧
    items buffer' !! 0%nat = Some row ∧
    (∀ j, j ≠ 0%nat → items buffer' !! j = items old_record !! j) ∧
    length (items buffer') = length (items old_record) ∧
    buffer' = set_items (items buffer') old_record ∧
    (f_price ≠ f_description → description row = description blank_item) ∧
    (f_price ≠ f_description_en →
     description_en row = description_en blank_item) ∧
    (f_price ≠ f_quantity → quantity row = quantity blank_item) ∧
    (f_price ≠ f_unit_price → unit_price row = unit_price blank_item) ∧
    (f_price ≠ f_price → price row = price blank_item) ∧
    (f_price = f_description → description row = "12") ∧
    (f_price = f_description_en → description_en row = "12") ∧
    (∀ n, safe_integer n → "12" = print_number n →
          (f_price = f_quantity → quantity row = n) ∧
          (f_price = f_unit_price → unit_price row = n) ∧
          (f_price = f_price → price row = n)).
Proof.
  assert (editedExpense editing_old_record = Some old_record) as E
    by (vm_compute; reflexivity).
  exact (item_change_one_row 0 f_price "12" editing_old_record old_record
           blank_item E eq_refl).
Defined.

(** X30: numbers typed into the form.  The decimal text of a safe
    integer, as a number input holds it, is read as that integer, so a
    numeric field of the record or of a row takes the integer typed; the
    empty input and a sign with nothing behind it are read as [0]. *)
Theorem number_input_reads (n : Z) :
  safe_integer n →
  number_input (print_number n) = n ∧
  total (set_field f_total (print_number n) (bare_record 0 0)) = Some n ∧
  number_input "" = 0 ∧ number_input "-" = 0.
Proof.
  intros Hsafe. split; [by apply number_input_print|].
  split; [|done]. simpl. f_equal. by apply number_input_print.
Qed.

Lemma number_input_reads_witness :
  number_input (print_number (-1250)) = -1250 ∧
  total (set_field f_total (print_number (-1250)) (bare_record 0 0))
  = Some (-1250) ∧
  number_input "" = 0 ∧ number_input "-" = 0.
Proof.
  assert (safe_integer (-1250)) as H by (vm_compute; repeat split).
  exact (number_input_reads (-1250) H).
Defined.
